(** * LLMBox, [utilization/model/dashscope_model.py]

    A shallow embedding of the [Dashscope] model class: the resolution of
    the generation options ([set_generation_args]), the retrying request
    loop ([request]) and the answer extraction ([generation]).

    The remote service [dashscope.Generation.call] is an opaque capability:
    it is a parameter of the development, a function of an abstract world
    state, the model name, the submitted messages and the options.  The
    loop records every call it issues, every warning it logs and every
    sleep in a trace of events. *)

From Stdlib Require Import ZArith QArith.
From stdpp Require Import gmap strings list.

Close Scope Q_scope.
Open Scope Z_scope.
Open Scope string_scope.
Open Scope list_scope.
Open Scope nat_scope.

(** ** Python values held by the option dictionaries *)

(** The values that reach [generation_kwargs]: [None], booleans, integers,
    floats and strings or lists of strings ([stop]).  A float stands for
    the rational it denotes; the only float operation of the class is the
    comparison [== 0]. *)
Inductive Value :=
| VNone
| VBool (b : bool)
| VInt (z : Z)
| VFloat (q : Q)
| VStr (s : string)
| VList (l : list string).

(** [value is None] *)
Definition is_None (v : Value) : bool :=
  match v with VNone => true | _ => false end.

(** [value == 0], Python's equality with the integer zero: [False], [0],
    [0.0] and [-0.0] are equal to it, nothing else is. *)
Definition py_eq_zero (v : Value) : bool :=
  match v with
  | VNone => false
  | VBool b => negb b
  | VInt z => (z =? 0)%Z
  | VFloat q => (Qnum q =? 0)%Z
  | VStr _ => false
  | VList _ => false
  end.

(** Truth value of an object, as [if value:] and [not value] test it. *)
Definition truthy (v : Value) : bool :=
  match v with
  | VNone => false
  | VBool b => b
  | VInt z => negb (z =? 0)%Z
  | VFloat q => negb (Qnum q =? 0)%Z
  | VStr s => negb (String.length s =? 0)
  | VList l => negb (length l =? 0)
  end.

(** [d.pop(key, default)]: the value under [key] and the dictionary
    without it, or the default and the dictionary unchanged. *)
Definition dict_pop (key : string) (dflt : Value) (d : gmap string Value)
  : Value * gmap string Value :=
  match d !! key with
  | Some v => (v, delete key d)
  | None => (dflt, d)
  end.

(** [d.get(key, default)] *)
Definition dict_get (key : string) (dflt : Value) (d : gmap string Value) : Value :=
  match d !! key with
  | Some v => v
  | None => dflt
  end.

(** ** Exceptions *)

Inductive Exn :=
| ValueError (msg : string)
| ConnectionError (msg : string)
| AssertionError
| IndexError
| AttributeError (attr : string)
| TypeError
| UpstreamError (msg : string).

(** ** ModelArguments and the model object *)

(** [ModelArguments] is declared outside this file.  The class reads the
    credential, the two names and the seed as plain attributes, and the
    generation options by name through [getattr(self.args, key, None)]:
    [attrs] holds the attributes that can be read by name. *)
Record ModelArguments := {
  dashscope_api_key : Value;
  model_name_or_path : string;
  tokenizer_name_or_path : string;
  seed : Value;
  attrs : gmap string Value;
}.

(** [getattr(args, key, None)] *)
Definition getattr (args : ModelArguments) (key : string) : Value :=
  dict_get key VNone (attrs args).

(** The instance attributes.  [generation_kwargs] and [multi_turn] do not
    exist before [set_generation_args] has run. *)
Record Dashscope (Tokenizer : Type) := {
  api_key : Value;
  args : ModelArguments;
  name : string;
  model_type : string;
  tokenizer : Tokenizer;
  max_try_times : nat;
  generation_kwargs : option (gmap string Value);
  multi_turn : option Value;
}.
Arguments api_key {Tokenizer} _.
Arguments args {Tokenizer} _.
Arguments name {Tokenizer} _.
Arguments model_type {Tokenizer} _.
Arguments tokenizer {Tokenizer} _.
Arguments max_try_times {Tokenizer} _.
Arguments generation_kwargs {Tokenizer} _.
Arguments multi_turn {Tokenizer} _.

Definition missing_key_message : string :=
  "Dashscope API key is required. Please set it by passing a `--dashscope_api_key` or through environment variable `DASHSCOPE_API_KEY`.".

(** ** The masked key of the info line *)

(** [s[:n]], as a prefix of at most [n] characters. *)
Fixpoint string_take (n : nat) (s : string) : string :=
  match n, s with
  | S n', String c s' => String c (string_take n' s')
  | _, _ => EmptyString
  end.

(** What is left of [s] after its first [n] characters. *)
Fixpoint string_drop (n : nat) (s : string) : string :=
  match n, s with
  | S n', String _ s' => string_drop n' s'
  | _, _ => s
  end.

(** [s[:n]] *)
Definition py_slice_to (n : nat) (s : string) : string := string_take n s.

(** [s[-n:]] for a positive [n]: the slice starts at [len(s) - n], or at
    the beginning when the string is shorter. *)
Definition py_slice_last (n : nat) (s : string) : string :=
  string_drop (String.length s - n) s.

(** [c * n] *)
Fixpoint string_repeat (c : string) (n : nat) : string :=
  match n with
  | O => EmptyString
  | S n' => c +:+ string_repeat c n'
  end.

(** The masked key [__init__] writes to the log:
    [key[:8] + "*" * 23 + key[-4:]]. *)
Definition private_key (key : string) : string :=
  py_slice_to 8 key +:+ string_repeat "*" 23 +:+ py_slice_last 4 key.

(** The info line of [__init__]. *)
Definition init_info_line (key : string) : string :=
  "Trying to load Dashscope model with api_key='" +:+ private_key key +:+ "'".

(** [Dashscope.__init__].  The constructor of the base class [Model] and
    the tokenizer lookup of the dashscope package are outside this file:
    both are parameters, and each of them returns or raises.  The
    statements run in the order of the source: the base constructor, the
    test of the key, the masked key (which raises [TypeError] for a key
    that is not a string), the info line, the tokenizer lookup.  The
    result comes with the lines written to the log. *)
Definition init {Tokenizer : Type}
    (super_init : ModelArguments -> option Exn)
    (get_tokenizer : string -> Exn + Tokenizer)
    (a : ModelArguments) : (Exn + Dashscope Tokenizer) * list string :=
  match super_init a with
  | Some e => (inl e, [])
  | None =>
      if negb (truthy (dashscope_api_key a))
      then (inl (ValueError missing_key_message), [])
      else
        match dashscope_api_key a with
        | VStr key =>
            let log := [init_info_line key] in
            match get_tokenizer (tokenizer_name_or_path a) with
            | inl e => (inl e, log)
            | inr tok =>
                (inr {| api_key := dashscope_api_key a;
                        args := a;
                        name := model_name_or_path a;
                        model_type := "instruction";
                        tokenizer := tok;
                        max_try_times := 10;
                        generation_kwargs := None;
                        multi_turn := None |}, log)
            end
        | _ => (inl TypeError, [])
        end
  end.

(** ** set_generation_args *)

Definition option_keys : list string :=
  ["temperature"; "top_p"; "top_k"; "max_tokens"; "repetition_penalty";
   "enable_search"; "stop"].

(** One iteration of the loop over the keys, on the pair of the dictionary
    being built and the extra arguments (which [pop] mutates). *)
Definition resolve_key (a : ModelArguments) (st : gmap string Value * gmap string Value)
    (key : string) : gmap string Value * gmap string Value :=
  let '(kwargs, extra_model_args) := st in
  let value := getattr a key in
  let '(value, extra_model_args) :=
    if is_None value then dict_pop key VNone extra_model_args
    else (value, extra_model_args) in
  let value :=
    if String.eqb key "max_tokens" && is_None value then VInt 1024 else value in
  let kwargs := if negb (is_None value) then <[key := value]> kwargs else kwargs in
  (kwargs, extra_model_args).

(** The dictionary after the loop and the temperature test. *)
Definition resolve_generation_kwargs (a : ModelArguments)
    (extra_model_args : gmap string Value) : gmap string Value * gmap string Value :=
  let '(kwargs, extra_model_args) :=
    foldl (resolve_key a) (∅, extra_model_args) option_keys in
  let kwargs :=
    if py_eq_zero (dict_get "temperature" (VInt 1) kwargs)
    then <["seed" := seed a]> kwargs else kwargs in
  (kwargs, extra_model_args).

(** [Dashscope.set_generation_args]: the updated object and the returned
    dictionary. *)
Definition set_generation_args {Tokenizer : Type} (self : Dashscope Tokenizer)
    (extra_model_args : gmap string Value)
  : Dashscope Tokenizer * gmap string Value :=
  let '(kwargs, extra_model_args) :=
    resolve_generation_kwargs (args self) extra_model_args in
  let '(mt, _) := dict_pop "multi_turn" (VBool false) extra_model_args in
  ({| api_key := api_key self;
      args := args self;
      name := name self;
      model_type := model_type self;
      tokenizer := tokenizer self;
      max_try_times := max_try_times self;
      generation_kwargs := Some kwargs;
      multi_turn := Some mt |}, kwargs).

(** The value [set_generation_args] resolves for one listed key: the
    attribute of the arguments, else the extra argument, else (for
    [max_tokens] only) 1024; [VNone] when nothing is set. *)
Definition resolved (a : ModelArguments) (extra_model_args : gmap string Value)
    (key : string) : Value :=
  let value := getattr a key in
  let value := if is_None value then dict_get key VNone extra_model_args else value in
  if String.eqb key "max_tokens" && is_None value then VInt 1024 else value.

(** ** Messages, responses and events *)

Inductive Role := user | assistant.

(** A dictionary [{"role": ..., "content": ...}] of the conversation. *)
Record Message := { role : Role; content : string }.

(** The object [msg.output.choices[0].message] of a response; [generation]
    reads its [content]. *)
Record Reply := { reply_role : string; reply_content : string }.

(** What a returned response exposes to the loop: [status_code], [message]
    and, when the output holds a first choice, its message. *)
Record Response := {
  status_code : Z;
  message : string;
  first_choice : option Reply;
}.

Definition HTTPStatus_OK : Z := 200.

(** The trace: a call with what was submitted and what came back (an
    exception or a response), a warning line, a sleep. *)
Inductive Event :=
| EvCall (model : string) (messages : list Message) (kwargs : gmap string Value)
         (outcome : Exn + Response)
| EvWarning (line : string)
| EvSleep (seconds : Z).

(** A single call has failed when it raised, when its status is not OK, or
    when its output has no first choice to read. *)
Definition failed (outcome : Exn + Response) : bool :=
  match outcome with
  | inl _ => true
  | inr msg =>
      negb (status_code msg =? HTTPStatus_OK)%Z
      || match first_choice msg with None => true | Some _ => false end
  end.

(** The reply a call delivers to the loop, if any. *)
Definition reply_of (outcome : Exn + Response) : option Reply :=
  match outcome with
  | inl _ => None
  | inr msg => if (status_code msg =? HTTPStatus_OK)%Z then first_choice msg else None
  end.

(** ** str.split and str.join *)

Definition SEPARATOR : string := "__SEPARATOR__".

(** [split_aux sep skip s]: the first segment of [s] and the segments
    after it, scanning from the left; [skip] counts the characters of a
    separator that was just matched and remain to be passed over. *)
Fixpoint split_aux (sep : string) (skip : nat) (s : string) : string * list string :=
  match s with
  | EmptyString => (EmptyString, [])
  | String c s' =>
      match skip with
      | S k => split_aux sep k s'
      | O =>
          if String.prefix sep s
          then (EmptyString,
                let '(h, t) := split_aux sep (String.length sep - 1) s' in h :: t)
          else let '(h, t) := split_aux sep 0 s' in (String c h, t)
      end
  end.

(** [s.split(sep)] for a non-empty [sep]. *)
Definition split (sep s : string) : list string :=
  let '(h, t) := split_aux sep 0 s in h :: t.

(** [sep.join(l)] *)
Fixpoint join (sep : string) (l : list string) : string :=
  match l with
  | [] => EmptyString
  | x :: l' =>
      match l' with
      | [] => x
      | _ :: _ => x +:+ sep +:+ join sep l'
      end
  end.

(** [s] holds an occurrence of [sep]. *)
Definition occurs (sep s : string) : Prop :=
  exists a b, s = a +:+ sep +:+ b.

Definition nonempty (s : string) : bool := negb (String.length s =? 0).

(** The turn prompts of a sequence of parts: the parts the loop does not
    skip, in order. *)
Definition turn_prompts (parts : list string) : list string :=
  filter (fun q => nonempty q = true) parts.

(** ** The request loop *)

(** How the body of the [try] ends: it returns [results], or an exception
    reaches the handler.  The locals at that point are kept for the
    statements about them; the handler reads [error_msg] only. *)
Inductive RoundOutcome :=
| Returned (results : list Reply) (messages : list Message)
| Caught (e : Exn) (error_msg : string) (results : list Reply)
         (messages : list Message).

Definition results_of (o : RoundOutcome) : list Reply :=
  match o with
  | Returned results _ => results
  | Caught _ _ results _ => results
  end.

Definition messages_of (o : RoundOutcome) : list Message :=
  match o with
  | Returned _ messages => messages
  | Caught _ _ _ messages => messages
  end.

Definition is_returned (o : RoundOutcome) : bool :=
  match o with Returned _ _ => true | Caught _ _ _ _ => false end.

Definition user_message (query : string) : Message :=
  {| role := user; content := query |}.

Definition assistant_message (r : Reply) : Message :=
  {| role := assistant; content := reply_content r |}.

(** The conversation of the turn prompts [qs] and the replies [rs] to the
    first of them: user and assistant messages in turn, ending with the
    user message that has no reply yet, if there is one. *)
Fixpoint conversation (qs : list string) (rs : list Reply) : list Message :=
  match qs with
  | [] => []
  | q :: qs' =>
      match rs with
      | [] => [user_message q]
      | r :: rs' => user_message q :: assistant_message r :: conversation qs' rs'
      end
  end.

Definition role_eqb (a b : Role) : bool :=
  match a, b with
  | user, user => true
  | assistant, assistant => true
  | _, _ => false
  end.

Definition other_role (a : Role) : Role :=
  match a with user => assistant | assistant => user end.

(** The roles of [l] alternate, starting with [first]. *)
Fixpoint alternates (first : Role) (l : list Message) : bool :=
  match l with
  | [] => true
  | m :: l' => role_eqb (role m) first && alternates (other_role first) l'
  end.

(** The sequence the loop iterates over: [prompt[0].split(SEPARATOR)] or
    [prompt]; [None] when [prompt[0]] does not exist. *)
Definition request_parts (prompt : list string) (multi_turn : bool)
  : option (list string) :=
  if multi_turn then
    match prompt with
    | [] => None
    | p0 :: _ => Some (split SEPARATOR p0)
    end
  else Some prompt.

Section Request.

Context {World : Type}.

(** [dashscope.Generation.call(model=, messages=, result_format="message",
    **kwargs)]: it raises, or it returns a response.
    The exceptions it raises are those of class [Exception], the class
    the handler of [request] catches; what is raised outside that class
    (a keyboard interrupt) is no part of this model. *)
Variable call :
  World -> string -> list Message -> gmap string Value -> (Exn + Response) * World.

Variable model : string.
Variable kwargs : gmap string Value.

(** The [for query in parts] loop, from the locals [messages], [results]
    and [error_msg]. *)
Fixpoint turns (parts : list string) (messages : list Message)
    (results : list Reply) (error_msg : string) (w : World)
  : RoundOutcome * World * list Event :=
  match parts with
  | [] => (Returned results messages, w, [])
  | query :: rest =>
      if (String.length query =? 0) then turns rest messages results error_msg w
      else
        let messages := messages ++ [user_message query] in
        let '(out, w) := call w model messages kwargs in
        let ev := EvCall model messages kwargs out in
        match out with
        | inl e => (Caught e error_msg results messages, w, [ev])
        | inr msg =>
            let error_msg :=
              if negb (status_code msg =? HTTPStatus_OK)%Z then message msg
              else error_msg in
            if negb (status_code msg =? HTTPStatus_OK)%Z
            then (Caught AssertionError error_msg results messages, w, [ev])
            else
              match first_choice msg with
              | None => (Caught IndexError error_msg results messages, w, [ev])
              | Some r =>
                  let results := results ++ [r] in
                  let messages := messages ++ [assistant_message r] in
                  let '(o, w, tr) := turns rest messages results error_msg w in
                  (o, w, ev :: tr)
              end
        end
  end.

(** The body of the [try] of one attempt. *)
Definition round (prompt : list string) (multi_turn : bool) (w : World)
  : RoundOutcome * World * list Event :=
  let error_msg := "EMPTY_ERROR_MSG" in
  let messages := [] in
  let results := [] in
  match request_parts prompt multi_turn with
  | None => (Caught IndexError error_msg results messages, w, [])
  | Some parts => turns parts messages results error_msg w
  end.

(** The handler: two warnings and [time.sleep(1)]. *)
Definition handler_events (error_msg : string) : list Event :=
  [EvWarning ("Receive error: " +:+ error_msg); EvWarning "retrying...";
   EvSleep 1].

(** [for _ in range(n)] around the [try], then the final [raise]. *)
Fixpoint attempts (n : nat) (prompt : list string) (multi_turn : bool) (w : World)
  : (Exn + list Reply) * World * list Event :=
  match n with
  | O => (inl (ConnectionError "Dashscope API error"), w, [])
  | S n' =>
      match round prompt multi_turn w with
      | (Returned results _, w, tr) => (inr results, w, tr)
      | (Caught _ error_msg _ _, w, tr) =>
          let '(r, w, tr') := attempts n' prompt multi_turn w in
          (r, w, tr ++ handler_events error_msg ++ tr')
      end
  end.

(** Each of the next [n] rounds ends in the handler. *)
Fixpoint rounds_all_fail (n : nat) (prompt : list string) (multi_turn : bool)
    (w : World) : bool :=
  match n with
  | O => true
  | S n' =>
      match round prompt multi_turn w with
      | (Returned _ _, _, _) => false
      | (Caught _ _ _ _, w, _) => rounds_all_fail n' prompt multi_turn w
      end
  end.

End Request.

(** The result of [generation]: the list of answers, or the one-element
    list holding the tuple of them. *)
Inductive Answers :=
| AnswerList (answers : list string)
| DialogueList (dialogues : list (list string)).

Section Generation.

Context {World Tokenizer : Type}.
Variable call :
  World -> string -> list Message -> gmap string Value -> (Exn + Response) * World.

(** [Dashscope.request] *)
Definition request (self : Dashscope Tokenizer) (prompt : list string)
    (kwargs : gmap string Value) (multi_turn : bool) (w : World)
  : (Exn + list Reply) * World * list Event :=
  attempts call (name self) kwargs (max_try_times self) prompt multi_turn w.

(** [Dashscope.generation] *)
Definition generation (self : Dashscope Tokenizer) (batched_inputs : list string)
    (w : World) : (Exn + Answers) * World * list Event :=
  match generation_kwargs self with
  | None => (inl (AttributeError "generation_kwargs"), w, [])
  | Some kwargs =>
      match multi_turn self with
      | None => (inl (AttributeError "multi_turn"), w, [])
      | Some mt =>
          match request self batched_inputs kwargs (truthy mt) w with
          | (inl e, w, tr) => (inl e, w, tr)
          | (inr results, w, tr) =>
              let answers := map reply_content results in
              (inr (if truthy mt then DialogueList [answers]
                    else AnswerList answers), w, tr)
          end
      end
  end.

End Generation.

(** ** A scripted service for the examples *)

Definition last_content (messages : list Message) : string :=
  match last messages with
  | Some m => content m
  | None => EmptyString
  end.

Definition ok_response (text : string) : Response :=
  {| status_code := 200; message := EmptyString;
     first_choice := Some {| reply_role := "assistant"; reply_content := text |} |}.

Definition bad_response (code : Z) (text : string) : Response :=
  {| status_code := code; message := text; first_choice := None |}.

(** The world is the list of outcomes of the coming calls; once it is
    used up the service answers every call by echoing the last message. *)
Definition scripted_call (w : list (Exn + Response)) (model : string)
    (messages : list Message) (kwargs : gmap string Value)
  : (Exn + Response) * list (Exn + Response) :=
  match w with
  | [] => (inr (ok_response ("re: " +:+ last_content messages)), [])
  | r :: w' => (r, w')
  end.

(** A service that is down: every call gets status 500. *)
Definition down_call (w : unit) (model : string) (messages : list Message)
    (kwargs : gmap string Value) : (Exn + Response) * unit :=
  (inr (bad_response 500 "Internal Server Error"), tt).

Definition example_args : ModelArguments :=
  {| dashscope_api_key := VStr "sk-0123456789abcdef";
     model_name_or_path := "qwen-turbo";
     tokenizer_name_or_path := "qwen-turbo";
     seed := VInt 2023;
     attrs := ∅ |}.

Definition example_model : Dashscope unit :=
  {| api_key := dashscope_api_key example_args;
     args := example_args;
     name := "qwen-turbo";
     model_type := "instruction";
     tokenizer := tt;
     max_try_times := 10;
     generation_kwargs := None;
     multi_turn := None |}.

(** ** Notions used by the statements *)

Definition is_call (ev : Event) : bool :=
  match ev with EvCall _ _ _ _ => true | _ => false end.

Definition is_sleep (ev : Event) : bool :=
  match ev with EvSleep _ => true | _ => false end.

(** The turn prompts of a request; none when [prompt[0]] does not exist. *)
Definition request_turn_prompts (prompt : list string) (multi_turn : bool)
  : list string :=
  match request_parts prompt multi_turn with
  | Some parts => turn_prompts parts
  | None => []
  end.

(** Every assistant message of [ms] stands right after a user message and
    holds the reply delivered by the call of [tr] that submitted the
    conversation up to that user message. *)
Definition answers_in_place (model : string) (kwargs : gmap string Value)
    (tr : list Event) (ms : list Message) : Prop :=
  forall k a, ms !! (2 * k + 1) = Some a ->
    exists q out r,
      ms !! (2 * k) = Some (user_message q)
      /\ tr !! k = Some (EvCall model (take (2 * k + 1) ms) kwargs out)
      /\ reply_of out = Some r
      /\ a = assistant_message r.

(** [answers] are the replies of the calls [calls], one for each turn
    prompt of [qs] and in the same order: call [i] submits a conversation
    that ends with the user message of prompt [i] and delivers answer
    [i]. *)
Definition answers_aligned (model : string) (kwargs : gmap string Value)
    (qs : list string) (calls : list Event) (answers : list string) : Prop :=
  length answers = length qs
  /\ length calls = length qs
  /\ forall i q, qs !! i = Some q ->
       exists ms out r,
         calls !! i = Some (EvCall model ms kwargs out)
         /\ last ms = Some (user_message q)
         /\ reply_of out = Some r
         /\ answers !! i = Some (reply_content r).

(** A decision of [occurs]: some suffix of [s] begins with [sep]. *)
Fixpoint occursb (sep s : string) : bool :=
  String.prefix sep s
  || match s with
     | EmptyString => false
     | String _ s' => occursb sep s'
     end.

(** Model arguments that set a temperature. *)
Definition warm_args : ModelArguments :=
  {| dashscope_api_key := VStr "sk-0123456789abcdef";
     model_name_or_path := "qwen-turbo";
     tokenizer_name_or_path := "qwen-turbo";
     seed := VInt 2023;
     attrs := {[ "temperature" := VFloat (7 # 10) ]} |}.

Definition warm_model : Dashscope unit :=
  {| api_key := dashscope_api_key warm_args;
     args := warm_args;
     name := "qwen-turbo";
     model_type := "instruction";
     tokenizer := tt;
     max_try_times := 10;
     generation_kwargs := None;
     multi_turn := None |}.

(** ** The rest of the class and the dataset *)

(** Followed by a separator, [t] has no separator that begins inside
    it: the scan of [split] finds the one that follows [t] first. *)
Fixpoint ends_cleanly (sep t : string) : bool :=
  match t with
  | EmptyString => true
  | String _ t' => negb (String.prefix sep (t +:+ sep)) && ends_cleanly sep t'
  end.

(** The value of [error_msg] in the handler after a call with this
    outcome has ended the round: [msg.message] when the status is not OK,
    the initial text otherwise. *)
Definition error_msg_after (outcome : Exn + Response) : string :=
  match outcome with
  | inl _ => "EMPTY_ERROR_MSG"
  | inr msg =>
      if negb (status_code msg =? HTTPStatus_OK)%Z then message msg
      else "EMPTY_ERROR_MSG"
  end.

(** The exception that reaches the handler after a failed call. *)
Definition exception_after (outcome : Exn + Response) : Exn :=
  match outcome with
  | inl e => e
  | inr msg =>
      if negb (status_code msg =? HTTPStatus_OK)%Z then AssertionError
      else IndexError
  end.

(** [utilization/dataset/winogender.py] *)
Module WinoGender.

(** The objects an instance holds: strings, integers, lists. *)
#[warnings="-register-all"] Inductive Obj :=
| OStr (s : string)
| OInt (z : Z)
| OList (l : list Obj).

Inductive Error :=
| KeyError (key : string)
| ValueError (v : Obj).

(** [WinoGender.format_instance]: the instance with its [options] entry
    set; a missing field raises [KeyError], [occupation] being read
    first. *)
Definition format_instance (instance : gmap string Obj)
  : Error + gmap string Obj :=
  match instance !! "occupation" with
  | None => inl (KeyError "occupation")
  | Some occupation =>
      match instance !! "participant" with
      | None => inl (KeyError "participant")
      | Some participant =>
          inr (<["options" := OList [occupation; participant]]> instance)
      end
  end.

Section References.

(** The builtin [int]: the integer of an object, or no value when it
    raises. *)
Variable py_int : Obj -> option Z.

(** [WinoGender.references] on [self.evaluation_data]: the comprehension
    stops at the first instance that raises. *)
Fixpoint references (evaluation_data : list (gmap string Obj))
  : Error + list Z :=
  match evaluation_data with
  | [] => inr []
  | instance :: rest =>
      match instance !! "label" with
      | None => inl (KeyError "label")
      | Some label =>
          match py_int label with
          | None => inl (ValueError label)
          | Some z =>
              match references rest with
              | inl e => inl e
              | inr zs => inr (z :: zs)
              end
          end
      end
  end.

End References.

(** The example of the class docstring, and a reading of labels for it. *)
Definition example_instance : gmap string Obj :=
  {[ "sentid" := OStr "technician.customer.1.male.txt";
     "sentence" := OStr "The technician told the customer that he could pay with cash.";
     "pronoun" := OStr "he";
     "occupation" := OStr "technician";
     "participant" := OStr "customer";
     "gender" := OStr "male";
     "target" := OStr "customer";
     "label" := OStr "1" ]}.

Definition digit_int (v : Obj) : option Z :=
  match v with
  | OInt z => Some z
  | OStr "0" => Some 0%Z
  | OStr "1" => Some 1%Z
  | _ => None
  end.

End WinoGender.

(** A service that answers every call. *)
Definition echo_call (w : unit) (model : string) (messages : list Message)
    (kwargs : gmap string Value) : (Exn + Response) * unit :=
  (inr (ok_response ("re: " +:+ last_content messages)), tt).


(** * Properties *)

(** ** The option dictionary *)

Section Resolve.

Variable a : ModelArguments.

Lemma dict_pop_value key dflt d : (dict_pop key dflt d).1 = dict_get key dflt d.
Proof. unfold dict_pop, dict_get. by destruct (d !! key). Qed.

Lemma dict_pop_other key dflt d k :
  k ≠ key -> (dict_pop key dflt d).2 !! k = d !! k.
Proof.
  intros Hne. unfold dict_pop. destruct (d !! key); simpl; [|done].
  by rewrite lookup_delete_ne.
Qed.

Lemma resolved_ext (e1 e2 : gmap string Value) key :
  e1 !! key = e2 !! key -> resolved a e1 key = resolved a e2 key.
Proof. intros H. unfold resolved, dict_get. by rewrite H. Qed.

Lemma resolve_key_same (st : gmap string Value * gmap string Value) key :
  (resolve_key a st key).1 !! key =
    if is_None (resolved a st.2 key) then st.1 !! key
    else Some (resolved a st.2 key).
Proof.
  destruct st as [kw ex]. unfold resolve_key, resolved. cbv zeta. cbn [fst snd].
  destruct (is_None (getattr a key)) eqn:Hattr.
  - rewrite <- dict_pop_value.
    destruct (dict_pop key VNone ex) as [v ex'] eqn:Hpop. cbn [fst snd].
    destruct (String.eqb key "max_tokens" && is_None v) eqn:Hmax; cbn [fst snd negb is_None].
    + apply lookup_insert_eq.
    + destruct (is_None v); cbn [negb fst]; [done|]. apply lookup_insert_eq.
  - rewrite !Hattr, !andb_false_r, !Hattr. cbn [negb fst]. apply lookup_insert_eq.
Qed.

Lemma resolve_key_other (st : gmap string Value * gmap string Value) k key :
  k ≠ key ->
  (resolve_key a st k).1 !! key = st.1 !! key
  /\ (resolve_key a st k).2 !! key = st.2 !! key.
Proof.
  intros Hne. destruct st as [kw ex]. unfold resolve_key. cbv zeta. cbn [fst snd].
  destruct (is_None (getattr a k)).
  - pose proof (dict_pop_other k VNone ex key (not_eq_sym Hne)) as Hex.
    destruct (dict_pop k VNone ex) as [v ex']. cbn [fst snd] in *.
    split; [|done].
    destruct (negb _); [|done]. by apply lookup_insert_ne.
  - cbn [fst snd]. split; [|done].
    destruct (negb _); [|done]. by apply lookup_insert_ne.
Qed.

Lemma resolve_keys_other ks (st : gmap string Value * gmap string Value) key :
  key ∉ ks ->
  (foldl (resolve_key a) st ks).1 !! key = st.1 !! key
  /\ (foldl (resolve_key a) st ks).2 !! key = st.2 !! key.
Proof.
  revert st. induction ks as [|k ks IH]; intros st Hnotin; [done|].
  simpl. apply not_elem_of_cons in Hnotin as [Hne Hnotin].
  destruct (IH (resolve_key a st k) Hnotin) as [H1 H2].
  destruct (resolve_key_other st k key (not_eq_sym Hne)) as [H3 H4].
  split; congruence.
Qed.

Lemma resolve_keys_lookup ks (st : gmap string Value * gmap string Value) key :
  NoDup ks -> key ∈ ks ->
  (foldl (resolve_key a) st ks).1 !! key =
    if is_None (resolved a st.2 key) then st.1 !! key
    else Some (resolved a st.2 key).
Proof.
  revert st. induction ks as [|k ks IH]; intros st Hnd Hin.
  - by apply elem_of_nil in Hin.
  - apply NoDup_cons in Hnd as [Hk Hnd]. simpl.
    destruct (decide (key = k)) as [->|Hne].
    + destruct (resolve_keys_other ks (resolve_key a st k) k Hk) as [-> _].
      apply resolve_key_same.
    + apply elem_of_cons in Hin as [?|Hin]; [done|].
      rewrite (IH _ Hnd Hin).
      destruct (resolve_key_other st k key (not_eq_sym Hne)) as [H1 H2].
      by rewrite (resolved_ext _ _ _ H2), H1.
Qed.

Lemma seed_not_listed : "seed" ∉ option_keys.
Proof.
  unfold option_keys. rewrite !not_elem_of_cons.
  repeat split; try discriminate. apply not_elem_of_nil.
Qed.

Lemma option_keys_NoDup : NoDup option_keys.
Proof. apply (bool_decide_unpack _). by vm_compute. Qed.

(** The dictionary before the temperature test. *)
Lemma loop_lookup_listed extra key :
  key ∈ option_keys ->
  (foldl (resolve_key a) (∅, extra) option_keys).1 !! key =
    if is_None (resolved a extra key) then None else Some (resolved a extra key).
Proof.
  intros Hin. rewrite (resolve_keys_lookup _ _ _ option_keys_NoDup Hin).
  cbn [fst snd]. by rewrite lookup_empty.
Qed.

Lemma loop_lookup_unlisted extra key :
  key ∉ option_keys ->
  (foldl (resolve_key a) (∅, extra) option_keys).1 !! key = None.
Proof.
  intros Hnotin.
  destruct (resolve_keys_other option_keys (∅, extra) key Hnotin) as [-> _].
  apply lookup_empty.
Qed.

Lemma resolve_generation_kwargs_listed extra key :
  key ∈ option_keys ->
  (resolve_generation_kwargs a extra).1 !! key =
    if is_None (resolved a extra key) then None else Some (resolved a extra key).
Proof.
  intros Hin. unfold resolve_generation_kwargs.
  pose proof (loop_lookup_listed extra key Hin) as Hl.
  destruct (foldl (resolve_key a) (∅, extra) option_keys) as [kw ex].
  cbn [fst snd] in *.
  destruct (py_eq_zero _); cbn [fst]; [|done].
  rewrite lookup_insert_ne; [done|].
  intros <-. exact (seed_not_listed Hin).
Qed.

Lemma resolve_generation_kwargs_seed extra :
  (resolve_generation_kwargs a extra).1 !! "seed" =
    if py_eq_zero (dict_get "temperature" (VInt 1) (resolve_generation_kwargs a extra).1)
    then Some (seed a) else None.
Proof.
  unfold resolve_generation_kwargs.
  pose proof (loop_lookup_unlisted extra "seed" seed_not_listed) as Hl.
  destruct (foldl (resolve_key a) (∅, extra) option_keys) as [kw ex].
  cbn [fst snd] in *.
  destruct (py_eq_zero (dict_get "temperature" (VInt 1) kw)) eqn:Ht; cbn [fst].
  - unfold dict_get. rewrite (lookup_insert_ne kw "seed" "temperature") by discriminate.
    fold (dict_get "temperature" (VInt 1) kw). rewrite Ht.
    apply lookup_insert_eq.
  - by rewrite Ht.
Qed.

End Resolve.

Lemma set_generation_args_returns {T : Type} (self : Dashscope T) extra :
  (set_generation_args self extra).2 = (resolve_generation_kwargs (args self) extra).1
  /\ generation_kwargs (set_generation_args self extra).1
     = Some (resolve_generation_kwargs (args self) extra).1
  /\ name (set_generation_args self extra).1 = name self
  /\ max_try_times (set_generation_args self extra).1 = max_try_times self.
Proof.
  unfold set_generation_args.
  destruct (resolve_generation_kwargs (args self) extra) as [kw ex].
  by destruct (dict_pop "multi_turn" (VBool false) ex).
Qed.

(** ** str.split *)

Section Split.

Lemma string_app_cons x (a b : string) : String x a +:+ b = String x (a +:+ b).
Proof. reflexivity. Qed.

Lemma string_app_empty_l (b : string) : "" +:+ b = b.
Proof. reflexivity. Qed.

Lemma string_app_assoc (a b c : string) : (a +:+ b) +:+ c = a +:+ (b +:+ c).
Proof. induction a as [|x a IH]; [done|]. rewrite !string_app_cons. by f_equal. Qed.

Lemma string_app_empty_r (a : string) : a +:+ "" = a.
Proof. induction a as [|x a IH]; [done|]. rewrite string_app_cons. by f_equal. Qed.

Lemma string_length_app (a b : string) :
  String.length (a +:+ b) = String.length a + String.length b.
Proof.
  induction a as [|x a IH]; [done|].
  rewrite string_app_cons. cbn [String.length]. by rewrite IH.
Qed.

Lemma prefix_empty (s : string) : String.prefix "" s = true.
Proof. by destruct s. Qed.

Lemma prefix_cons x y (p s : string) :
  String.prefix (String x p) (String y s) =
    if Ascii.ascii_dec x y then String.prefix p s else false.
Proof. reflexivity. Qed.

Lemma prefix_true_iff (p s : string) :
  String.prefix p s = true <-> exists rest, s = p +:+ rest.
Proof.
  revert s. induction p as [|x p IH]; intros s.
  - rewrite prefix_empty. split; [|done]. intros _. by exists s.
  - destruct s as [|y s].
    + split; [done|]. by intros [rest ?].
    + rewrite prefix_cons. destruct (Ascii.ascii_dec x y) as [->|Hne].
      * rewrite IH. split; intros [rest Hr]; exists rest.
        -- by rewrite string_app_cons, <- Hr.
        -- rewrite string_app_cons in Hr. congruence.
      * split; [done|]. intros [rest Hr].
        rewrite string_app_cons in Hr. congruence.
Qed.

Lemma nonempty_length (s : string) : nonempty s = true <-> s ≠ "".
Proof.
  unfold nonempty. destruct s; simpl; split; try done.
Qed.

Variable sep : string.
Hypothesis sep_nonempty : sep ≠ "".

Lemma split_aux_skip (a s : string) :
  split_aux sep (String.length a) (a +:+ s) = split_aux sep 0 s.
Proof.
  induction a as [|x a IH]; [done|].
  rewrite string_app_cons. cbn [String.length split_aux]. apply IH.
Qed.

Lemma split_empty : split sep "" = [""].
Proof. done. Qed.

(** At a separator the current segment ends. *)
Lemma split_match (rest : string) : split sep (sep +:+ rest) = "" :: split sep rest.
Proof.
  unfold split. destruct sep as [|c sep'] eqn:Hsep; [done|].
  rewrite string_app_cons. cbn [split_aux]. rewrite <- Hsep.
  assert (String.prefix sep (String c (sep' +:+ rest)) = true) as ->.
  { apply prefix_true_iff. exists rest. by rewrite Hsep. }
  replace (String.length sep - 1) with (String.length sep')
    by (rewrite Hsep; cbn [String.length]; lia).
  by rewrite split_aux_skip.
Qed.

(** Elsewhere the character joins the current segment. *)
Lemma split_char (c : Ascii.ascii) (s : string) :
  String.prefix sep (String c s) = false ->
  split sep (String c s) =
    match split sep s with
    | h :: t => String c h :: t
    | [] => []
    end.
Proof.
  intros Hp. unfold split. cbn [split_aux]. rewrite Hp.
  by destruct (split_aux sep 0 s).
Qed.

Lemma split_not_nil (s : string) : split sep s ≠ [].
Proof. unfold split. by destruct (split_aux sep 0 s). Qed.

Lemma join_cons_char c h t : join sep (String c h :: t) = String c (join sep (h :: t)).
Proof. by destruct t. Qed.

(** Induction on strings that follows the scan of [split]. *)
Lemma split_ind (P : string -> Prop) :
  P "" ->
  (forall rest, P rest -> P (sep +:+ rest)) ->
  (forall c s, String.prefix sep (String c s) = false -> P s -> P (String c s)) ->
  forall s, P s.
Proof.
  intros Hnil Hmatch Hchar s.
  remember (String.length s) as n eqn:Hn.
  revert s Hn. induction (lt_wf n) as [n _ IH]. intros s Hn.
  destruct s as [|c s]; [done|].
  destruct (String.prefix sep (String c s)) eqn:Hp.
  - apply prefix_true_iff in Hp as [rest Hr]. rewrite Hr.
    apply Hmatch. apply (IH (String.length rest)); [|done].
    rewrite Hn, Hr, string_length_app.
    destruct sep; [done|]. cbn [String.length]. lia.
  - apply Hchar; [done|]. apply (IH (String.length s)); [|done].
    rewrite Hn. cbn [String.length]. lia.
Qed.

(** Joining the segments with the separator gives the string back. *)
Lemma join_split (s : string) : join sep (split sep s) = s.
Proof.
  induction s as [|rest IH|c s Hp IH] using split_ind.
  - done.
  - rewrite split_match.
    destruct (split sep rest) as [|h t] eqn:Hs; [by apply split_not_nil in Hs|].
    cbn [join]. cbn [join] in IH. by rewrite IH.
  - rewrite (split_char _ _ Hp).
    destruct (split sep s) as [|h t] eqn:Hs; [by apply split_not_nil in Hs|].
    by rewrite join_cons_char, IH.
Qed.

(** The first segment is a prefix of the string. *)
Lemma split_head_prefix (s h : string) (t : list string) :
  split sep s = h :: t -> exists rest, s = h +:+ rest.
Proof.
  intros Hs. pose proof (join_split s) as Hj. rewrite Hs in Hj.
  destruct t as [|x t]; cbn [join] in Hj.
  - exists "". by rewrite string_app_empty_r.
  - eexists. by rewrite <- Hj.
Qed.

Lemma not_occurs_empty : ~ occurs sep "".
Proof.
  intros (a & b & H). destruct a; [|done].
  rewrite string_app_empty_l in H. destruct sep; done.
Qed.

(** No segment holds a separator. *)
Lemma split_segments_free (s : string) : Forall (fun x => ~ occurs sep x) (split sep s).
Proof.
  induction s as [|rest IH|c s Hp IH] using split_ind.
  - rewrite split_empty. repeat constructor. apply not_occurs_empty.
  - rewrite split_match. constructor; [apply not_occurs_empty|done].
  - rewrite (split_char _ _ Hp).
    destruct (split sep s) as [|h t] eqn:Hs; [by apply split_not_nil in Hs|].
    apply Forall_cons in IH as [Hh Ht]. constructor; [|done].
    intros (a & b & Hocc). destruct a as [|x a].
    + rewrite string_app_empty_l in Hocc.
      destruct (split_head_prefix _ _ _ Hs) as [rest Hrest].
      assert (String.prefix sep (String c s) = true) as Hp'; [|congruence].
      apply prefix_true_iff. exists (b +:+ rest).
      by rewrite Hrest, <- string_app_assoc, <- Hocc.
    + rewrite string_app_cons in Hocc. apply Hh. exists a, b. congruence.
Qed.

(** A string without separator is its own single segment. *)
Lemma split_no_separator (s : string) : ~ occurs sep s -> split sep s = [s].
Proof.
  induction s as [|c s IH]; intros Hno; [done|].
  assert (String.prefix sep (String c s) = false) as Hp.
  { destruct (String.prefix sep (String c s)) eqn:Hp; [|done].
    apply prefix_true_iff in Hp as [rest Hr]. destruct Hno.
    exists "", rest. by rewrite Hr. }
  rewrite (split_char _ _ Hp), IH; [done|].
  intros (a & b & Hocc). apply Hno. exists (String c a), b.
  by rewrite string_app_cons, Hocc.
Qed.

End Split.

Lemma SEPARATOR_nonempty : SEPARATOR ≠ "".
Proof. done. Qed.

(** ** Conversations *)

Section Conversation.

Lemma conversation_length qs rs :
  length (conversation qs rs) =
    length qs `min` length rs + length qs `min` S (length rs).
Proof.
  revert rs. induction qs as [|q qs IH]; intros rs; [done|].
  destruct rs as [|r rs]; cbn [conversation length].
  - lia.
  - rewrite IH. lia.
Qed.

Lemma conversation_alternates qs rs : alternates user (conversation qs rs) = true.
Proof.
  revert rs. induction qs as [|q qs IH]; intros rs; [done|].
  destruct rs as [|r rs]; [done|]. cbn. apply IH.
Qed.

Lemma conversation_lookup_even qs rs k m :
  conversation qs rs !! (2 * k) = Some m ->
  exists q, qs !! k = Some q /\ m = user_message q.
Proof.
  revert qs rs. induction k as [|k IH]; intros qs rs Hm.
  - destruct qs as [|q qs]; [done|]. exists q.
    destruct rs; cbn in Hm; by injection Hm as <-.
  - replace (2 * S k) with (S (S (2 * k))) in Hm by lia.
    destruct qs as [|q qs]; [done|].
    destruct rs as [|r rs]; [done|]. cbn in Hm. by apply IH in Hm.
Qed.

Lemma conversation_lookup_odd qs rs k m :
  conversation qs rs !! (2 * k + 1) = Some m ->
  exists q r, qs !! k = Some q /\ rs !! k = Some r
    /\ m = assistant_message r
    /\ conversation qs rs !! (2 * k) = Some (user_message q).
Proof.
  revert qs rs. induction k as [|k IH]; intros qs rs Hm.
  - destruct qs as [|q qs]; [done|].
    destruct rs as [|r rs]; [done|]. cbn in Hm. injection Hm as <-.
    by exists q, r.
  - replace (2 * S k + 1) with (S (S (2 * k + 1))) in Hm by lia.
    replace (2 * S k) with (S (S (2 * k))) by lia.
    destruct qs as [|q qs]; [done|].
    destruct rs as [|r rs]; [done|]. cbn in Hm. by apply IH in Hm.
Qed.

(** The conversation as it was when turn [k] was submitted. *)
Lemma conversation_take qs rs k :
  take (2 * k + 1) (conversation qs rs) = conversation (take (S k) qs) (take k rs).
Proof.
  revert qs rs. induction k as [|k IH]; intros qs rs.
  - destruct qs as [|q qs]; [done|]. by destruct rs.
  - replace (2 * S k + 1) with (S (S (2 * k + 1))) by lia.
    destruct qs as [|q qs]; [done|].
    destruct rs as [|r rs]; [done|].
    cbn [conversation take]. by rewrite IH.
Qed.

Lemma turn_prompts_all parts :
  Forall (fun q => nonempty q = true) parts -> turn_prompts parts = parts.
Proof.
  induction 1 as [|q parts Hq _ IH]; [done|].
  unfold turn_prompts in *. by rewrite filter_cons_True, IH.
Qed.

Lemma turn_prompts_nonempty parts :
  Forall (fun q => nonempty q = true) (turn_prompts parts).
Proof. apply Forall_forall. intros q Hq. by apply list_elem_of_filter in Hq as [? _]. Qed.

End Conversation.

(** ** One round *)

Section Round.

Context {World : Type}.
Variable call :
  World -> string -> list Message -> gmap string Value -> (Exn + Response) * World.
Variable model : string.
Variable kwargs : gmap string Value.

Lemma reply_of_failed out : failed out = true <-> reply_of out = None.
Proof.
  destruct out as [e|msg]; cbn; [done|].
  destruct (status_code msg =? HTTPStatus_OK)%Z; cbn; [|done].
  by destruct (first_choice msg).
Qed.

(** The shape of a run of the loop from the locals [m0] and [r0]: the
    replies [R] it records, the conversation it ends with, the number of
    calls, and what each call submits and delivers. *)
Lemma turns_shape parts m0 r0 e0 w o w' tr :
  turns call model kwargs parts m0 r0 e0 w = (o, w', tr) ->
  exists R,
    results_of o = r0 ++ R
    /\ messages_of o = m0 ++ conversation (take (length tr) (turn_prompts parts)) R
    /\ (if is_returned o
        then length tr = length (turn_prompts parts) /\ length R = length tr
        else length tr = S (length R) /\ length tr <= length (turn_prompts parts))
    /\ (forall j ev, tr !! j = Some ev ->
          exists out,
            ev = EvCall model
                   (m0 ++ conversation (take (S j) (turn_prompts parts)) (take j R))
                   kwargs out
            /\ reply_of out = R !! j).
Proof.
  revert m0 r0 e0 w o w' tr.
  induction parts as [|q rest IH]; intros m0 r0 e0 w o w' tr Ht.
  - cbn in Ht. injection Ht as <- <- <-. exists [].
    cbn. rewrite !app_nil_r. by repeat split.
  - cbn [turns] in Ht. unfold turn_prompts.
    destruct (String.length q =? 0) eqn:Hq.
    + rewrite filter_cons_False by (unfold nonempty; by rewrite Hq).
      by apply IH in Ht.
    + rewrite filter_cons_True by (unfold nonempty; by rewrite Hq).
      fold (turn_prompts rest).
      destruct (call w model (m0 ++ [user_message q]) kwargs) as [out w1] eqn:Hcall.
      assert (forall e em,
        o = Caught e em r0 (m0 ++ [user_message q]) ->
        tr = [EvCall model (m0 ++ [user_message q]) kwargs out] ->
        reply_of out = None ->
        exists R,
          results_of o = r0 ++ R
          /\ messages_of o = m0 ++ conversation (take (length tr) (q :: turn_prompts rest)) R
          /\ (if is_returned o
              then length tr = length (q :: turn_prompts rest) /\ length R = length tr
              else length tr = S (length R) /\ length tr <= length (q :: turn_prompts rest))
          /\ (forall j ev, tr !! j = Some ev ->
                exists out,
                  ev = EvCall model
                         (m0 ++ conversation (take (S j) (q :: turn_prompts rest)) (take j R))
                         kwargs out
                  /\ reply_of out = R !! j)) as Hcaught.
      { intros e em -> -> Hnone. exists []. cbn. rewrite app_nil_r.
        repeat split; [lia|].
        intros [|j] ev Hev; [|done]. injection Hev as <-.
        exists out. split; [|done]. by rewrite take_0. }
      destruct out as [e|msg].
      * injection Ht as <- <- <-. by eapply Hcaught.
      * destruct (status_code msg =? HTTPStatus_OK)%Z eqn:Hst; cbn [negb] in Ht.
        2:{ injection Ht as <- <- <-. eapply Hcaught; [done..|].
            cbn. by rewrite Hst. }
        destruct (first_choice msg) as [r|] eqn:Hfc.
        2:{ injection Ht as <- <- <-. eapply Hcaught; [done..|].
            cbn. by rewrite Hst. }
        clear Hcaught.
        destruct (turns call model kwargs rest
                    ((m0 ++ [user_message q]) ++ [assistant_message r])
                    (r0 ++ [r]) e0 w1) as [[o1 w2] tr1] eqn:Hrec.
        injection Ht as <- <- <-.
        apply IH in Hrec as (R & HR & HM & Hlen & Hev).
        exists (r :: R). split; [|split; [|split]].
        -- rewrite HR. by rewrite <- app_assoc.
        -- rewrite HM. cbn. by rewrite <- !app_assoc.
        -- cbn [length]. destruct (is_returned o1); lia.
        -- intros [|j] ev Hj.
           ++ injection Hj as <-. exists (inr msg). split.
              ** by rewrite take_0.
              ** cbn. by rewrite Hst.
           ++ cbn in Hj. apply Hev in Hj as (out & -> & Hout).
              exists out. split; [|done].
              cbn. by rewrite <- !app_assoc.
Qed.

(** When no call succeeds, a loop that has a turn prompt ends in the
    handler. *)
Lemma turns_caught_when_calls_fail parts m0 r0 e0 w :
  (forall w md ms kw, failed (call w md ms kw).1 = true) ->
  turn_prompts parts ≠ [] ->
  is_returned (turns call model kwargs parts m0 r0 e0 w).1.1 = false.
Proof.
  intros Hdown. revert m0 r0 e0 w.
  induction parts as [|q rest IH]; intros m0 r0 e0 w Hne; [done|].
  cbn [turns]. unfold turn_prompts in Hne.
  destruct (String.length q =? 0) eqn:Hq.
  - rewrite filter_cons_False in Hne by (unfold nonempty; by rewrite Hq).
    by apply IH.
  - pose proof (Hdown w model (m0 ++ [user_message q]) kwargs) as Hf.
    destruct (call w model (m0 ++ [user_message q]) kwargs) as [out w1].
    cbn [fst] in Hf. destruct out as [e|msg]; [done|]. cbn [failed] in Hf.
    destruct (status_code msg =? HTTPStatus_OK)%Z; cbn [negb orb] in *; [|done].
    by destruct (first_choice msg).
Qed.

End Round.

(** ** The retry loop *)

Section Attempts.

Context {World : Type}.
Variable call :
  World -> string -> list Message -> gmap string Value -> (Exn + Response) * World.
Variable model : string.
Variable kwargs : gmap string Value.
Variable prompt : list string.
Variable mt : bool.

(** A round never reaches its loop when [prompt[0]] is missing;
    otherwise it is the loop from empty locals. *)
Lemma round_shape w o w' tr :
  round call model kwargs prompt mt w = (o, w', tr) ->
  (request_parts prompt mt = None /\ tr = [] /\ is_returned o = false
   /\ results_of o = [] /\ messages_of o = [])
  \/ (is_Some (request_parts prompt mt)
      /\ messages_of o = conversation (take (length tr) (request_turn_prompts prompt mt)) (results_of o)
      /\ (if is_returned o
          then length tr = length (request_turn_prompts prompt mt) /\ length (results_of o) = length tr
          else length tr = S (length (results_of o)) /\ length tr <= length (request_turn_prompts prompt mt))
      /\ (forall j ev, tr !! j = Some ev ->
            exists out,
              ev = EvCall model
                     (conversation (take (S j) (request_turn_prompts prompt mt)) (take j (results_of o)))
                     kwargs out
              /\ reply_of out = results_of o !! j)).
Proof.
  unfold round, request_turn_prompts.
  destruct (request_parts prompt mt) as [parts|]; intros Hr.
  - right. apply turns_shape in Hr as (R & HR & HM & Hlen & Hev).
    rewrite app_nil_l in HR, HM. rewrite HR. split; [by eexists|].
    split; [done|]. split; [done|]. intros j ev Hj.
    apply Hev in Hj as (out & -> & Hout). by exists out.
  - left. by injection Hr as <- <- <-.
Qed.

Lemma round_calls_only w o w' tr j ev :
  round call model kwargs prompt mt w = (o, w', tr) -> tr !! j = Some ev -> is_call ev = true.
Proof.
  intros Hr Hj. apply round_shape in Hr as [(_ & -> & _)|(_ & _ & _ & Hev)]; [done|].
  by apply Hev in Hj as (out & -> & _).
Qed.

(** A call of a round has failed exactly when it is the last call of a
    round that ends in the handler. *)
Lemma round_failed_call w o w' tr j md ms kw out :
  round call model kwargs prompt mt w = (o, w', tr) ->
  tr !! j = Some (EvCall md ms kw out) ->
  failed out = true ->
  is_returned o = false /\ S j = length tr.
Proof.
  intros Hr Hj Hf. pose proof (lookup_lt_Some _ _ _ Hj) as Hlt.
  apply round_shape in Hr as [(_ & -> & _)|(_ & _ & Hlen & Hev)]; [done|].
  apply Hev in Hj as (out' & Heq & Hout). injection Heq as _ _ _ <-.
  apply reply_of_failed in Hf. rewrite Hf in Hout. symmetry in Hout.
  apply lookup_ge_None in Hout.
  destruct (is_returned o); [lia|]. split; [done|lia].
Qed.

Lemma attempts_inv n w r w' tr :
  attempts call model kwargs (S n) prompt mt w = (r, w', tr) ->
  (exists M results, round call model kwargs prompt mt w = (Returned results M, w', tr) /\ r = inr results)
  \/ (exists e em R M w1 tr1 tr2,
        round call model kwargs prompt mt w = (Caught e em R M, w1, tr1)
        /\ attempts call model kwargs n prompt mt w1 = (r, w', tr2)
        /\ tr = tr1 ++ handler_events em ++ tr2).
Proof.
  cbn [attempts].
  destruct (round call model kwargs prompt mt w) as [[[R M|e em R M] w1] tr1] eqn:Hr.
  - intros [= <- <- <-]. left. by exists M, R.
  - destruct (attempts call model kwargs n prompt mt w1) as [[r2 w2] tr2] eqn:Ha.
    intros [= <- <- <-]. right. by exists e, em, R, M, w1, tr1, tr2.
Qed.

(** After every sleep the rest of the request is the loop run afresh
    with what is left of the budget. *)
Lemma attempts_after_sleep n w r w' tr i s :
  attempts call model kwargs n prompt mt w = (r, w', tr) ->
  tr !! i = Some (EvSleep s) ->
  s = 1%Z /\ exists n' w0, n' < n /\ attempts call model kwargs n' prompt mt w0 = (r, w', drop (S i) tr).
Proof.
  revert w tr i. induction n as [|n IH]; intros w tr i Ha Hi.
  - cbn in Ha. by injection Ha as <- <- <-.
  - apply attempts_inv in Ha
      as [(M & R & Hr & ->)|(e & em & R & M & w1 & tr1 & tr2 & Hr & Ha & ->)].
    + by apply (round_calls_only _ _ _ _ _ _ Hr) in Hi.
    + destruct (decide (i < length tr1)) as [Hlt|Hge].
      * rewrite lookup_app_l in Hi by done.
        by apply (round_calls_only _ _ _ _ _ _ Hr) in Hi.
      * rewrite lookup_app_r in Hi by lia.
        destruct (i - length tr1) as [|[|[|i']]] eqn:Hi'; cbn in Hi; try done.
        -- injection Hi as <-. split; [done|]. exists n, w1. split; [lia|].
           replace (S i) with (length tr1 + 3) by lia.
           rewrite drop_app_ge; [|lia].
           replace (length tr1 + 3 - length tr1) with 3 by lia. by rewrite Ha.
        -- apply IH with (w := w1) in Hi as (-> & n' & w0 & Hn' & Ha'); [|done].
           split; [done|]. exists n', w0. split; [lia|].
           replace (S i) with (length tr1 + (3 + S i')) by lia.
           rewrite drop_app_ge; [|lia].
           replace (length tr1 + (3 + S i') - length tr1) with (3 + S i') by lia.
           exact Ha'.
Qed.

Lemma handler_events_sleeps em :
  filter (fun ev => is_sleep ev = true) (handler_events em) = [EvSleep 1].
Proof. reflexivity. Qed.

(** The request raises exactly when all its rounds fail, and then it
    raises the connection error. *)
Lemma attempts_raises n w :
  rounds_all_fail call model kwargs n prompt mt w = true ->
  exists w' tr,
    attempts call model kwargs n prompt mt w = (inl (ConnectionError "Dashscope API error"), w', tr)
    /\ length (filter (fun ev => is_sleep ev = true) tr) = n.
Proof.
  revert w. induction n as [|n IH]; intros w Hall.
  - by exists w, [].
  - cbn [rounds_all_fail] in Hall. cbn [attempts].
    destruct (round call model kwargs prompt mt w) as [[[R M|e em R M] w1] tr1] eqn:Hr; [done|].
    apply IH in Hall as (w' & tr & -> & Hlen). exists w', (tr1 ++ handler_events em ++ tr).
    split; [done|]. rewrite !filter_app, handler_events_sleeps, !length_app, Hlen.
    assert (filter (fun ev => is_sleep ev = true) tr1 = []) as ->.
    { destruct (filter _ tr1) as [|ev l] eqn:Hf; [done|].
      assert (ev ∈ filter (fun ev => is_sleep ev = true) tr1) as Hev
        by (rewrite Hf; left).
      apply list_elem_of_filter in Hev as [Hs Hev].
      apply list_elem_of_lookup in Hev as [j Hj].
      apply (round_calls_only _ _ _ _ _ _ Hr) in Hj. by destruct ev. }
    cbn. lia.
Qed.

Lemma attempts_result n w r w' tr :
  attempts call model kwargs n prompt mt w = (r, w', tr) ->
  match r with
  | inl e =>
      e = ConnectionError "Dashscope API error"
      /\ rounds_all_fail call model kwargs n prompt mt w = true
  | inr results =>
      rounds_all_fail call model kwargs n prompt mt w = false
      /\ exists pre trf w0 M,
           tr = pre ++ trf
           /\ round call model kwargs prompt mt w0 = (Returned results M, w', trf)
  end.
Proof.
  revert w tr. induction n as [|n IH]; intros w tr Ha.
  - cbn in Ha. by injection Ha as <- <- <-.
  - apply attempts_inv in Ha
      as [(M & R & Hr & ->)|(e & em & R & M & w1 & tr1 & tr2 & Hr & Ha & ->)].
    + cbn [rounds_all_fail]. rewrite Hr. split; [done|].
      exists [], tr, w, M. by rewrite app_nil_l.
    + cbn [rounds_all_fail]. rewrite Hr. apply IH in Ha.
      destruct r as [e'|results]; [done|].
      destruct Ha as (Hall & pre & trf & w0 & M' & -> & Hr').
      split; [done|]. exists (tr1 ++ handler_events em ++ pre), trf, w0, M'.
      by rewrite <- !app_assoc.
Qed.

(** When no call succeeds and there is a turn prompt, every round fails. *)
Lemma rounds_all_fail_when_calls_fail n w :
  (forall w md ms kw, failed (call w md ms kw).1 = true) ->
  request_turn_prompts prompt mt ≠ [] ->
  rounds_all_fail call model kwargs n prompt mt w = true.
Proof.
  intros Hdown Hne. revert w. induction n as [|n IH]; intros w; [done|].
  cbn [rounds_all_fail]. unfold round. unfold request_turn_prompts in Hne.
  destruct (request_parts prompt mt) as [parts|]; [|done].
  pose proof (turns_caught_when_calls_fail call model kwargs parts [] []
                "EMPTY_ERROR_MSG" w Hdown Hne) as Hc.
  destruct (turns call model kwargs parts [] [] "EMPTY_ERROR_MSG" w)
    as [[[R M|e em R M] w1] tr1]; [done|]. apply IH.
Qed.

(** Every call of the request is made with the model name and the
    options the request was given. *)
Lemma attempts_calls_kwargs n w r w' tr md ms kw out :
  attempts call model kwargs n prompt mt w = (r, w', tr) ->
  EvCall md ms kw out ∈ tr -> md = model /\ kw = kwargs.
Proof.
  revert w tr. induction n as [|n IH]; intros w tr Ha Hin.
  - cbn in Ha. injection Ha as <- <- <-. by apply elem_of_nil in Hin.
  - assert (forall o w1 tr1, round call model kwargs prompt mt w = (o, w1, tr1) ->
              EvCall md ms kw out ∈ tr1 -> md = model /\ kw = kwargs) as Hround.
    { intros o w1 tr1 Hr Hin1. apply list_elem_of_lookup in Hin1 as [j Hj].
      apply round_shape in Hr as [(_ & -> & _)|(_ & _ & _ & Hev)]; [done|].
      by apply Hev in Hj as (out' & [= -> _ -> _] & _). }
    apply attempts_inv in Ha
      as [(M & R & Hr & ->)|(e & em & R & M & w1 & tr1 & tr2 & Hr & Ha & ->)].
    + by eapply Hround.
    + apply elem_of_app in Hin as [Hin|Hin]; [by eapply Hround|].
      apply elem_of_app in Hin as [Hin|Hin]; [|by eapply IH].
      unfold handler_events in Hin. rewrite !elem_of_cons in Hin.
      destruct Hin as [?|[?|[?|Hin]]]; try done. by apply elem_of_nil in Hin.
Qed.

(** The first round of a request opens its trace, and what follows it,
    if anything, begins with a warning. *)
Lemma attempts_first_round n w r w' tr :
  attempts call model kwargs (S n) prompt mt w = (r, w', tr) ->
  exists o w1 tr1 rest,
    round call model kwargs prompt mt w = (o, w1, tr1)
    /\ tr = tr1 ++ rest
    /\ (rest = [] \/ exists line rest', rest = EvWarning line :: rest').
Proof.
  intros Ha. apply attempts_inv in Ha
    as [(M & R & Hr & ->)|(e & em & R & M & w1 & tr1 & tr2 & Hr & Ha & ->)].
  - exists (Returned R M), w', tr, []. rewrite app_nil_r. by auto.
  - exists (Caught e em R M), w1, tr1, (handler_events em ++ tr2).
    split; [done|]. split; [done|]. right. by eexists _, _.
Qed.

(** A failed call is followed at once by the two warnings and the
    sleep of one second. *)
Lemma attempts_failed_call n w r w' tr j md ms kw out :
  attempts call model kwargs n prompt mt w = (r, w', tr) ->
  tr !! j = Some (EvCall md ms kw out) ->
  failed out = true ->
  exists em,
    tr !! (j + 1) = Some (EvWarning ("Receive error: " +:+ em))
    /\ tr !! (j + 2) = Some (EvWarning "retrying...")
    /\ tr !! (j + 3) = Some (EvSleep 1).
Proof.
  revert w tr j. induction n as [|n IH]; intros w tr j Ha Hj Hf.
  - cbn in Ha. by injection Ha as <- <- <-.
  - apply attempts_inv in Ha
      as [(M & R & Hr & ->)|(e & em & R & M & w1 & tr1 & tr2 & Hr & Ha & ->)].
    + by destruct (round_failed_call _ _ _ _ _ _ _ _ _ Hr Hj Hf).
    + destruct (decide (j < length tr1)) as [Hlt|Hge].
      * rewrite lookup_app_l in Hj by done.
        destruct (round_failed_call _ _ _ _ _ _ _ _ _ Hr Hj Hf) as [_ Hlast].
        exists em.
        rewrite (lookup_app_r tr1 _ (j + 1)), (lookup_app_r tr1 _ (j + 2)),
          (lookup_app_r tr1 _ (j + 3)) by lia.
        replace (j + 1 - length tr1) with 0 by lia.
        replace (j + 2 - length tr1) with 1 by lia.
        replace (j + 3 - length tr1) with 2 by lia. done.
      * rewrite lookup_app_r in Hj by lia.
        destruct (j - length tr1) as [|[|[|j']]] eqn:Hj'; cbn in Hj; try done.
        destruct (IH _ _ _ Ha Hj Hf) as (em' & H1 & H2 & H3).
        exists em'.
        rewrite (lookup_app_r tr1 _ (j + 1)), (lookup_app_r tr1 _ (j + 2)),
          (lookup_app_r tr1 _ (j + 3)) by lia.
        replace (j + 1 - length tr1) with (3 + (j' + 1)) by lia.
        replace (j + 2 - length tr1) with (3 + (j' + 2)) by lia.
        replace (j + 3 - length tr1) with (3 + (j' + 3)) by lia. done.
Qed.

End Attempts.

(** ** Conversations seen through a trace *)

Section Answers.

Variable model : string.
Variable kwargs : gmap string Value.

(** In a trace whose call [j] submits the conversation of the first
    [j + 1] turn prompts and delivers reply [j], every conversation of
    turn prompts and earlier replies has its answers in place. *)
Lemma conversation_answers_in_place tr qs R a b :
  (forall j ev, tr !! j = Some ev ->
     exists out,
       ev = EvCall model (conversation (take (S j) qs) (take j R)) kwargs out
       /\ reply_of out = R !! j) ->
  length R <= length tr ->
  b <= a ->
  answers_in_place model kwargs tr (conversation (take a qs) (take b R)).
Proof.
  intros Hev Hlen Hba k m Hk.
  apply conversation_lookup_odd in Hk as (q & r & Hq & Hr & -> & Hu).
  apply lookup_take_Some in Hq as [Hq Hka].
  apply lookup_take_Some in Hr as [Hr Hkb].
  pose proof (lookup_lt_Some _ _ _ Hr) as HkR.
  destruct (lookup_lt_is_Some_2 tr k) as [ev Hevk]; [lia|].
  destruct (Hev _ _ Hevk) as (out & -> & Hout).
  exists q, out, r. split; [done|]. split; [|split; [congruence|done]].
  rewrite Hevk, conversation_take, !take_take.
  by replace (S k `min` a) with (S k) by lia; replace (k `min` b) with k by lia.
Qed.

Lemma answers_in_place_app tr rest ms :
  answers_in_place model kwargs tr ms ->
  answers_in_place model kwargs (tr ++ rest) ms.
Proof.
  intros H k m Hk. destruct (H k m Hk) as (q & out & r & Hq & Ht & Hr & ->).
  exists q, out, r. split; [done|]. split; [|done]. by apply lookup_app_l_Some.
Qed.

(** The conversation submitted for turn [i] ends with its prompt. *)
Lemma conversation_last qs rs i q :
  qs !! i = Some q -> i <= length rs ->
  last (conversation (take (S i) qs) (take i rs)) = Some (user_message q).
Proof.
  revert qs rs. induction i as [|i IH]; intros qs rs Hq Hi.
  - destruct qs as [|q0 qs]; [done|]. by injection Hq as ->.
  - destruct qs as [|q0 qs]; [done|].
    destruct rs as [|r0 rs]; [cbn in Hi; lia|].
    cbn [take conversation]. rewrite !last_cons.
    cbn in Hq, Hi. by rewrite (IH qs rs Hq) by lia.
Qed.

End Answers.

(** ** Rounds and their handler *)

Section MoreOnRounds.

Context {World : Type}.
Variable call :
  World -> string -> list Message -> gmap string Value -> (Exn + Response) * World.
Variable model : string.
Variable kwargs : gmap string Value.

(** Without a turn prompt the loop returns its locals and calls nothing. *)
Lemma turns_without_turn_prompt parts m0 r0 e0 w :
  turn_prompts parts = [] ->
  turns call model kwargs parts m0 r0 e0 w = (Returned r0 m0, w, []).
Proof.
  induction parts as [|q rest IH]; intros Hnil; [done|].
  cbn [turns]. unfold turn_prompts in Hnil.
  destruct (String.length q =? 0) eqn:Hq.
  - rewrite filter_cons_False in Hnil by (unfold nonempty; by rewrite Hq).
    by apply IH.
  - by rewrite filter_cons_True in Hnil by (unfold nonempty; by rewrite Hq).
Qed.

(** When every call succeeds the loop returns. *)
Lemma turns_returned_when_calls_succeed parts m0 r0 e0 w :
  (forall w md ms kw, failed (call w md ms kw).1 = false) ->
  is_returned (turns call model kwargs parts m0 r0 e0 w).1.1 = true.
Proof.
  intros Hup. revert m0 r0 e0 w.
  induction parts as [|q rest IH]; intros m0 r0 e0 w; [done|].
  cbn [turns]. destruct (String.length q =? 0); [apply IH|].
  pose proof (Hup w model (m0 ++ [user_message q]) kwargs) as Hf.
  destruct (call w model (m0 ++ [user_message q]) kwargs) as [out w1].
  cbn [fst] in Hf. destruct out as [e|msg]; [done|]. cbn [failed] in Hf.
  destruct (status_code msg =? HTTPStatus_OK)%Z; cbn [negb orb] in *; [|done].
  destruct (first_choice msg) as [r|]; [|done].
  specialize (IH ((m0 ++ [user_message q]) ++ [assistant_message r])
                (r0 ++ [r]) e0 w1).
  by destruct (turns _ _ _ _ _ _ _ _) as [[o w2] tr].
Qed.

(** What the handler gets when the loop is left by an exception: the
    last call of the trace is the one that failed, and it decides the
    exception and the text of [error_msg]. *)
Lemma turns_caught_by e0 parts m0 r0 w e em R M w' tr :
  turns call model kwargs parts m0 r0 e0 w = (Caught e em R M, w', tr) ->
  exists out,
    last tr = Some (EvCall model M kwargs out)
    /\ failed out = true
    /\ e = exception_after out
    /\ em = (match out with
             | inl _ => e0
             | inr msg =>
                 if negb (status_code msg =? HTTPStatus_OK)%Z then message msg
                 else e0
             end).
Proof.
  revert m0 r0 w tr.
  induction parts as [|q rest IH]; intros m0 r0 w tr Ht; [done|].
  cbn [turns] in Ht. destruct (String.length q =? 0); [by eapply IH|].
  destruct (call w model (m0 ++ [user_message q]) kwargs) as [out w1].
  destruct out as [e1|msg].
  - injection Ht as <- <- <- <- <- <-. by exists (inl e1).
  - destruct (status_code msg =? HTTPStatus_OK)%Z eqn:Hst; cbn [negb] in Ht.
    2:{ injection Ht as <- <- <- <- <- <-. exists (inr msg). cbn.
        by rewrite Hst. }
    destruct (first_choice msg) as [r|] eqn:Hfc.
    2:{ injection Ht as <- <- <- <- <- <-. exists (inr msg). cbn.
        by rewrite Hst, Hfc. }
    destruct (turns call model kwargs rest
                ((m0 ++ [user_message q]) ++ [assistant_message r])
                (r0 ++ [r]) e0 w1) as [[o1 w2] tr1] eqn:Hrec.
    injection Ht as -> <- <-.
    apply IH in Hrec as (out & Hlast & Hrest). exists out.
    split; [|done]. rewrite last_cons. by rewrite Hlast.
Qed.

End MoreOnRounds.

Section MoreOnAttempts.

Context {World : Type}.
Variable call :
  World -> string -> list Message -> gmap string Value -> (Exn + Response) * World.
Variable model : string.
Variable kwargs : gmap string Value.
Variable prompt : list string.
Variable mt : bool.

Lemma round_trace_bounds w o w1 tr1 :
  round call model kwargs prompt mt w = (o, w1, tr1) ->
  filter (fun ev => is_sleep ev = true) tr1 = []
  /\ length tr1 <= length (request_turn_prompts prompt mt).
Proof.
  intros Hr. split.
  - destruct (filter _ tr1) as [|ev l] eqn:Hf; [done|].
    assert (ev ∈ filter (fun ev => is_sleep ev = true) tr1) as Hev
      by (rewrite Hf; left).
    apply list_elem_of_filter in Hev as [Hs Hev].
    apply list_elem_of_lookup in Hev as [j Hj].
    apply (round_calls_only _ _ _ _ _ _ _ _ _ _ _ Hr) in Hj. by destruct ev.
  - apply round_shape in Hr as [(_ & -> & _)|(_ & _ & Hlen & _)]; [cbn; lia|].
    destruct (is_returned o); lia.
Qed.

Lemma round_caught_by w e em R M w1 tr1 :
  round call model kwargs prompt mt w = (Caught e em R M, w1, tr1) ->
  is_Some (request_parts prompt mt) ->
  exists out,
    last tr1 = Some (EvCall model M kwargs out)
    /\ failed out = true
    /\ e = exception_after out
    /\ em = error_msg_after out.
Proof.
  unfold round. intros Hr [parts Hparts]. rewrite Hparts in Hr.
  apply turns_caught_by in Hr as (out & H1 & H2 & H3 & H4).
  exists out. split; [done|]. split; [done|]. split; [done|].
  rewrite H4. by destruct out.
Qed.

End MoreOnAttempts.

Section Retries.

Context {World : Type}.
Variable call :
  World -> string -> list Message -> gmap string Value -> (Exn + Response) * World.
Variable model : string.
Variable kwargs : gmap string Value.
Variable prompt : list string.
Variable mt : bool.




(** The results a request returns are those of one round, the last one:
    its calls come after the last sleep, and each of them delivers the
    result of its rank. *)
Lemma attempts_returned_shape n w results w' tr :
  attempts call model kwargs n prompt mt w = (inr results, w', tr) ->
  exists pre calls,
    tr = pre ++ calls
    /\ (pre = [] \/ last pre = Some (EvSleep 1))
    /\ Forall (fun ev => is_call ev = true) calls
    /\ length results = length (request_turn_prompts prompt mt)
    /\ Forall2 (fun ev r =>
                  exists ms out,
                    ev = EvCall model ms kwargs out /\ reply_of out = Some r)
         calls results.
Proof.
  revert w tr. induction n as [|n IH]; intros w tr Ha.
  - cbn in Ha. discriminate.
  - apply attempts_inv in Ha
      as [(M & R & Hr & [= ->])|(e & em & R & M & w1 & tr1 & tr2 & Hr & Ha & ->)].
    + exists [], tr. split; [done|]. split; [by left|].
      split.
      { apply Forall_forall. intros ev Hev.
        apply list_elem_of_lookup in Hev as [j Hj].
        by apply (round_calls_only _ _ _ _ _ _ _ _ _ _ _ Hr) in Hj. }
      apply round_shape in Hr as [(_ & _ & ? & _)|(_ & _ & Hlen & Hev)]; [done|].
      cbn [is_returned results_of] in Hlen, Hev. destruct Hlen as [Hl1 Hl2].
      split; [lia|].
      apply Forall2_same_length_lookup_2; [lia|].
      intros i ev r Hi Hri. destruct (Hev _ _ Hi) as (out & -> & Hout).
      eexists _, out. split; [done|]. congruence.
    + destruct (IH _ _ Ha) as (pre & calls & -> & Hpre & Hrest).
      exists (tr1 ++ handler_events em ++ pre), calls.
      split; [by rewrite <- !app_assoc|]. split; [|done].
      right. destruct Hpre as [->|Hlast].
      * rewrite app_nil_r, last_app. done.
      * rewrite !last_app, Hlast. done.
Qed.

End Retries.

(** ** Construction *)

(** What is known of an object [__init__] has returned. *)
Lemma init_returns {T : Type} (super_init : ModelArguments -> option Exn)
    (get_tokenizer : string -> Exn + T) (a : ModelArguments)
    (self : Dashscope T) (log : list string) :
  init super_init get_tokenizer a = (inr self, log) ->
  name self = model_name_or_path a
  /\ max_try_times self = 10
  /\ args self = a
  /\ exists key, dashscope_api_key a = VStr key /\ log = [init_info_line key].
Proof.
  unfold init. destruct (super_init a); [done|].
  destruct (negb _); [done|].
  destruct (dashscope_api_key a) as [| | | |key|]; try done.
  destruct (get_tokenizer _) as [e|tok]; [done|].
  intros [= <- <-]. cbn. split; [done|]. split; [done|]. split; [done|].
  by exists key.
Qed.

(** * The claims *)

(** C9.  [set_generation_args] gives [max_tokens] the value 1024 when it
    is unset (absent or [None]) both in the model arguments and in the
    extra arguments, and for every listed option key a value set in the
    model arguments is the resolved value, whatever the extra arguments
    hold. *)
Theorem set_generation_args_default_and_precedence {T : Type}
    (self : Dashscope T) (extra : gmap string Value) :
  (getattr (args self) "max_tokens" = VNone ->
   dict_get "max_tokens" VNone extra = VNone ->
   (set_generation_args self extra).2 !! "max_tokens" = Some (VInt 1024))
  /\ (forall key v,
        key ∈ option_keys -> getattr (args self) key = v -> v ≠ VNone ->
        (set_generation_args self extra).2 !! key = Some v).
Proof.
  destruct (set_generation_args_returns self extra) as (-> & _). split.
  - intros Ha He. rewrite resolve_generation_kwargs_listed.
    + unfold resolved. by rewrite Ha, He.
    + unfold option_keys. set_solver.
  - intros key v Hkey Hv Hne. rewrite resolve_generation_kwargs_listed by done.
    unfold resolved. rewrite Hv.
    assert (is_None v = false) as Hn by (by destruct v).
    rewrite !Hn, andb_false_r. by rewrite Hn.
Qed.

(** C6.  In the dictionary [set_generation_args] resolves, the seed of the
    model arguments is present when the resolved temperature equals 0,
    and there is no seed entry when the temperature is unset or resolves
    to a value different from 0; the resolved temperature is the one of
    the model arguments, else the one of the extra arguments; and every
    call [generation] then issues is made with that dictionary. *)
Theorem seed_follows_temperature {T World : Type}
    (call : World -> string -> list Message -> gmap string Value
            -> (Exn + Response) * World)
    (self : Dashscope T) (extra : gmap string Value) :
  let kw := (set_generation_args self extra).2 in
  (forall t, kw !! "temperature" = Some t -> py_eq_zero t = true ->
             kw !! "seed" = Some (seed (args self)))
  /\ (forall t, kw !! "temperature" = Some t -> py_eq_zero t = false ->
                kw !! "seed" = None)
  /\ (kw !! "temperature" = None -> kw !! "seed" = None)
  /\ kw !! "temperature" =
       (if is_None (resolved (args self) extra "temperature") then None
        else Some (resolved (args self) extra "temperature"))
  /\ (forall inputs w md ms kw' out,
        EvCall md ms kw' out ∈ (generation call (set_generation_args self extra).1 inputs w).2 ->
        kw' = kw).
Proof.
  intros kw. subst kw.
  destruct (set_generation_args_returns self extra) as (-> & Hgk & _).
  pose proof (resolve_generation_kwargs_seed (args self) extra) as Hseed.
  unfold dict_get in Hseed.
  split; [|split; [|split; [|split]]].
  - intros t Ht Hz. by rewrite Hseed, Ht, Hz.
  - intros t Ht Hz. by rewrite Hseed, Ht, Hz.
  - intros Ht. by rewrite Hseed, Ht.
  - apply resolve_generation_kwargs_listed. unfold option_keys. set_solver.
  - intros inputs w md ms kw' out. unfold generation. rewrite Hgk.
    destruct (multi_turn _) as [mt|]; [|by intros ?%elem_of_nil].
    unfold request.
    destruct (attempts _ _ _ _ _ _ _) as [[[e|results] w'] tr] eqn:Ha;
      cbn [snd]; intros Hin;
      by destruct (attempts_calls_kwargs _ _ _ _ _ _ _ _ _ _ _ _ _ _ Ha Hin).
Qed.

(** C10.  With [multi_turn] true, [request] depends on the first element
    of the batch only: the elements after it change neither the result,
    nor the calls issued, nor the world. *)
Theorem multi_turn_reads_first_prompt_only {T World : Type}
    (call : World -> string -> list Message -> gmap string Value
            -> (Exn + Response) * World)
    (self : Dashscope T) (p : string) (others : list string)
    (kw : gmap string Value) (w : World) :
  request call self (p :: others) kw true w = request call self [p] kw true w.
Proof.
  unfold request. generalize (max_try_times self). intros n. revert w.
  induction n as [|n IH]; intros w; [done|].
  cbn [attempts].
  change (round call (name self) kw (p :: others) true w)
    with (round call (name self) kw [p] true w).
  destruct (round call (name self) kw [p] true w) as [[[R M|e em R M] w1] tr1]; [done|].
  by rewrite IH.
Qed.

(** C3.  For a model built by [__init__] (so with ten attempts), when
    each of the ten rounds fails the request raises the connection error,
    after ten sleeps, and so returns no result at all.  A request that
    returns results is one whose rounds did not all fail, and what it
    returns is the results of its last round and nothing else: one
    result for each turn prompt, each the reply of the call of its rank
    among the calls made after the last sleep, so that no reply of a
    failed round is among them.  The rounds all fail when there is a turn
    prompt and no call succeeds. *)
Theorem exhausted_retries_raise_connection_error {T World : Type}
    (call : World -> string -> list Message -> gmap string Value
            -> (Exn + Response) * World)
    (super_init : ModelArguments -> option Exn)
    (get_tokenizer : string -> Exn + T) (a : ModelArguments)
    (self : Dashscope T) (log : list string)
    (prompt : list string) (kw : gmap string Value) (mt : bool) (w : World) :
  init super_init get_tokenizer a = (inr self, log) ->
  (rounds_all_fail call (name self) kw 10 prompt mt w = true ->
   exists w' tr,
     request call self prompt kw mt w
       = (inl (ConnectionError "Dashscope API error"), w', tr)
     /\ length (filter (fun ev => is_sleep ev = true) tr) = 10)
  /\ (forall results w' tr,
        request call self prompt kw mt w = (inr results, w', tr) ->
        rounds_all_fail call (name self) kw 10 prompt mt w = false
        /\ exists pre calls,
             tr = pre ++ calls
             /\ (pre = [] \/ last pre = Some (EvSleep 1))
             /\ Forall (fun ev => is_call ev = true) calls
             /\ length results = length (request_turn_prompts prompt mt)
             /\ Forall2 (fun ev r =>
                           exists ms out,
                             ev = EvCall (name self) ms kw out
                             /\ reply_of out = Some r)
                  calls results)
  /\ ((forall w md ms kw, failed (call w md ms kw).1 = true) ->
      request_turn_prompts prompt mt ≠ [] ->
      rounds_all_fail call (name self) kw 10 prompt mt w = true).
Proof.
  intros (_ & Hmax & _)%init_returns.
  unfold request. rewrite Hmax. split; [|split].
  - apply attempts_raises.
  - intros results w' tr Ha. split.
    + by apply attempts_result in Ha as [? _].
    + by apply attempts_returned_shape in Ha.
  - apply rounds_all_fail_when_calls_fail.
Qed.


(** C7.  In a round, the conversation submitted by call [j] (counting
    from 0, so with [j + 1] turns issued) holds at most [2 * (j + 1)]
    messages, and the conversation the round ends with holds at most
    twice as many messages as calls were issued; in each of them the
    roles alternate from [user], and every assistant message stands right
    after a user message and holds the reply of the call that submitted
    the conversation up to that user message. *)
Theorem conversation_invariant {World : Type}
    (call : World -> string -> list Message -> gmap string Value
            -> (Exn + Response) * World)
    (model : string) (kwargs : gmap string Value) (prompt : list string)
    (mt : bool) (w : World) (o : RoundOutcome) (w' : World) (tr : list Event) :
  round call model kwargs prompt mt w = (o, w', tr) ->
  (forall j md ms kw out,
     tr !! j = Some (EvCall md ms kw out) ->
     length ms <= 2 * S j
     /\ alternates user ms = true
     /\ answers_in_place model kwargs tr ms)
  /\ length (messages_of o) <= 2 * length tr
  /\ alternates user (messages_of o) = true
  /\ answers_in_place model kwargs tr (messages_of o).
Proof.
  intros Hr.
  apply round_shape in Hr as [(_ & -> & _ & _ & ->)|(_ & HM & Hlen & Hev)].
  { split; [done|]. split; [done|]. split; [done|]. by intros k a0 ?. }
  assert (length (results_of o) <= length tr) as HR
    by (destruct (is_returned o); lia).
  split.
  - intros j md ms kw out Hj. pose proof (lookup_lt_Some _ _ _ Hj) as Hjlt.
    destruct (Hev _ _ Hj) as (out' & [= _ -> _ _] & _).
    split; [|split].
    + rewrite conversation_length, !length_take. lia.
    + apply conversation_alternates.
    + apply conversation_answers_in_place; [done|done|lia].
  - rewrite HM. split; [|split].
    + rewrite conversation_length, length_take. lia.
    + apply conversation_alternates.
    + rewrite <- (take_ge (results_of o) (length (results_of o))) at 1 by done.
      by apply conversation_answers_in_place.
Qed.

(** C2.  After each handled failure (each sleep in the trace of a
    request) the rest of the request is the loop run afresh from some
    world with the attempts that are left, so nothing of the failed round
    is passed on.  The calls that follow the sleep show it: the first one
    submits the first turn prompt alone, and call [j] of that attempt
    submits the conversation of the first [j + 1] turn prompts with [j]
    replies, each of them delivered by a call made after the sleep.  The
    results a request returns are as many as the turn prompts. *)
Theorem restart_begins_from_empty_state {World : Type}
    (call : World -> string -> list Message -> gmap string Value
            -> (Exn + Response) * World)
    (model : string) (kwargs : gmap string Value) (n : nat)
    (prompt : list string) (mt : bool) (w : World)
    (r : Exn + list Reply) (w' : World) (tr : list Event) (i : nat) :
  attempts call model kwargs n prompt mt w = (r, w', tr) ->
  tr !! i = Some (EvSleep 1) ->
  (exists n' w0,
     n' < n /\ attempts call model kwargs n' prompt mt w0 = (r, w', drop (S i) tr))
  /\ (forall md ms kw out,
        tr !! (S i) = Some (EvCall md ms kw out) ->
        exists q, head (request_turn_prompts prompt mt) = Some q
                  /\ ms = [user_message q])
  /\ (forall j md ms kw out,
        (forall k, k <= j -> exists ev, tr !! (S i + k) = Some ev /\ is_call ev = true) ->
        tr !! (S i + j) = Some (EvCall md ms kw out) ->
        exists Rj,
          length Rj = j
          /\ ms = conversation (take (S j) (request_turn_prompts prompt mt)) Rj
          /\ answers_in_place model kwargs (drop (S i) tr) ms)
  /\ (forall results, r = inr results ->
        length results = length (request_turn_prompts prompt mt)).
Proof.
  intros Ha Hi.
  destruct (attempts_after_sleep _ _ _ _ _ _ _ _ _ _ _ _ Ha Hi)
    as (_ & n' & w0 & Hn' & Ha').
  assert (forall j md ms kw out,
    (forall k, k <= j -> exists ev, tr !! (S i + k) = Some ev /\ is_call ev = true) ->
    tr !! (S i + j) = Some (EvCall md ms kw out) ->
    exists Rj,
      length Rj = j
      /\ ms = conversation (take (S j) (request_turn_prompts prompt mt)) Rj
      /\ answers_in_place model kwargs (drop (S i) tr) ms) as Hcalls.
  { intros j md ms kw out Hrun Hj.
    destruct n' as [|n'].
    { cbn in Ha'. injection Ha' as _ _ Hnil.
      rewrite <- lookup_drop, <- Hnil in Hj. done. }
    apply attempts_first_round in Ha'
      as (o & w1 & tr1 & rest & Hr & Hsplit & Hrest).
    assert (j < length tr1) as Hjlt.
    { destruct (decide (j < length tr1)) as [|Hge]; [done|].
      destruct (Hrun (length tr1)) as (ev & Hev & Hcall); [lia|].
      rewrite <- lookup_drop, Hsplit, lookup_app_r, Nat.sub_diag in Hev by lia.
      destruct Hrest as [->|(line & rest' & ->)]; [done|].
      injection Hev as <-. done. }
    rewrite <- lookup_drop, Hsplit, lookup_app_l in Hj by done.
    apply round_shape in Hr as [(_ & -> & _)|(_ & HM & Hlen & Hev)]; [done|].
    assert (length (results_of o) <= length tr1) as HR
      by (destruct (is_returned o); lia).
    assert (j <= length (results_of o)) as HjR
      by (destruct (is_returned o); lia).
    destruct (Hev _ _ Hj) as (out' & [= _ -> _ _] & _).
    exists (take j (results_of o)). split; [by rewrite length_take_le|].
    split; [done|]. rewrite Hsplit. apply answers_in_place_app.
    apply conversation_answers_in_place; [done|done|lia]. }
  split; [by exists n', w0|]. split; [|split; [done|]].
  - intros md ms kw out Hj.
    destruct (Hcalls 0 md ms kw out) as (Rj & HRj & -> & _).
    + intros k Hk. replace k with 0 by lia. rewrite Nat.add_0_r.
      by eexists.
    + by rewrite Nat.add_0_r.
    + apply nil_length_inv in HRj as ->.
      pose proof (lookup_lt_Some _ _ _ Hj) as Hlt.
      destruct (request_turn_prompts prompt mt) as [|q qs] eqn:Hqs.
      * exfalso. destruct n' as [|n'].
        { cbn in Ha'. injection Ha' as _ _ Hnil.
          rewrite <- (Nat.add_0_r (S i)), <- lookup_drop, <- Hnil in Hj. done. }
        apply attempts_first_round in Ha'
          as (o & w1 & tr1 & rest & Hr & Hsplit & Hrest).
        apply round_shape in Hr as [(_ & -> & _)|(_ & _ & Hlen & _)].
        -- rewrite <- (Nat.add_0_r (S i)), <- lookup_drop, Hsplit in Hj.
           by destruct Hrest as [->|(line & rest' & ->)].
        -- rewrite Hqs in Hlen. cbn in Hlen.
           assert (tr1 = []) as -> by (apply nil_length_inv; destruct (is_returned o); lia).
           rewrite <- (Nat.add_0_r (S i)), <- lookup_drop, Hsplit in Hj.
           by destruct Hrest as [->|(line & rest' & ->)].
      * by exists q.
  - intros results ->. apply attempts_result in Ha as (_ & pre & trf & w1 & M & _ & Hr).
    apply round_shape in Hr as [(_ & _ & ? & _)|(_ & _ & Hlen & _)]; [done|].
    cbn in Hlen. lia.
Qed.

(** C4, amended.  When [generation] returns, the answers are the replies
    of the calls of the last round, one for each turn prompt (each
    non-empty element of the batch, or each non-empty segment of the first
    element when [multi_turn] is true) and in the same order; they come
    as a list of strings, or with [multi_turn] true as a list holding the
    one tuple of them.  When [multi_turn] is false and no element of the
    batch is empty the answers are aligned with the batch itself. *)
Theorem generation_answers_follow_turn_prompts {T World : Type}
    (call : World -> string -> list Message -> gmap string Value
            -> (Exn + Response) * World)
    (self : Dashscope T) (kw : gmap string Value) (mt : Value)
    (inputs : list string) (w : World) (res : Answers) (w' : World)
    (tr : list Event) :
  generation_kwargs self = Some kw ->
  multi_turn self = Some mt ->
  generation call self inputs w = (inr res, w', tr) ->
  exists answers pre calls,
    res = (if truthy mt then DialogueList [answers] else AnswerList answers)
    /\ tr = pre ++ calls
    /\ answers_aligned (name self) kw
         (request_turn_prompts inputs (truthy mt)) calls answers
    /\ (truthy mt = false ->
        request_turn_prompts inputs (truthy mt) = turn_prompts inputs
        /\ (Forall (fun q => nonempty q = true) inputs ->
            answers_aligned (name self) kw inputs calls answers))
    /\ (truthy mt = true ->
        exists p0, head inputs = Some p0
          /\ request_turn_prompts inputs (truthy mt)
             = turn_prompts (split SEPARATOR p0)).
Proof.
  intros Hkw Hmt. unfold generation, request. rewrite Hkw, Hmt.
  destruct (attempts _ _ _ _ _ _ _) as [[[e|results] w1] tr1] eqn:Ha; [done|].
  intros [= <- <- <-].
  apply attempts_result in Ha as (_ & pre & calls & w0 & M & -> & Hr).
  apply round_shape in Hr as [(_ & _ & ? & _)|([parts Hparts] & _ & Hlen & Hev)];
    [done|].
  cbn [is_returned results_of] in Hlen, Hev. destruct Hlen as [Hlen1 Hlen2].
  exists (map reply_content results), pre, calls.
  assert (answers_aligned (name self) kw
            (request_turn_prompts inputs (truthy mt)) calls
            (map reply_content results)) as Haligned.
  2:{ split; [done|]. split; [done|]. split; [done|]. split.
      - intros Hf. unfold request_turn_prompts in *. rewrite Hf in *.
        cbn [request_parts] in *. split; [done|].
        intros Hall. by rewrite turn_prompts_all in Haligned.
      - intros Ht. unfold request_turn_prompts in *. rewrite Ht in *.
        cbn [request_parts] in *. destruct inputs as [|p0 others]; [done|].
        by exists p0. }
  split; [rewrite length_map; lia|]. split; [done|].
  intros i q Hq. pose proof (lookup_lt_Some _ _ _ Hq) as Hi.
  destruct (lookup_lt_is_Some_2 calls i) as [ev Hevi]; [lia|].
  destruct (Hev _ _ Hevi) as (out & -> & Hout).
  destruct (lookup_lt_is_Some_2 results i) as [r Hri]; [lia|].
  eexists _, out, r. split; [done|]. split; [|split].
  - apply conversation_last; [done|lia].
  - congruence.
  - by rewrite list_lookup_fmap, Hri.
Qed.

(** C5, amended.  With [multi_turn] true the parts of a request are the
    segments of its first element, split at the separator from the left:
    joined with the separator they give the element back, and none of
    them holds a separator.  The turn prompts are the non-empty segments
    in order: call [j] of a round submits a conversation ending with the
    user message of turn prompt [j], so an empty segment takes no call,
    and the conversation of a round that returns is the one of all turn
    prompts and their replies.  An element without separator is its own
    single part; it is the single turn prompt when it is not empty, and
    the empty element has no turn prompt.  The split raises nothing. *)
Theorem multi_turn_prompt_is_split_into_turns {World : Type}
    (call : World -> string -> list Message -> gmap string Value
            -> (Exn + Response) * World)
    (model : string) (kwargs : gmap string Value)
    (s : string) (others : list string) (w : World) :
  request_parts (s :: others) true = Some (split SEPARATOR s)
  /\ join SEPARATOR (split SEPARATOR s) = s
  /\ Forall (fun x => ~ occurs SEPARATOR x) (split SEPARATOR s)
  /\ request_turn_prompts (s :: others) true
     = filter (fun q => nonempty q = true) (split SEPARATOR s)
  /\ (forall o w' tr,
        round call model kwargs (s :: others) true w = (o, w', tr) ->
        length tr <= length (turn_prompts (split SEPARATOR s))
        /\ (forall j ev, tr !! j = Some ev ->
              exists q ms out,
                turn_prompts (split SEPARATOR s) !! j = Some q
                /\ ev = EvCall model ms kwargs out
                /\ last ms = Some (user_message q))
        /\ (is_returned o = true ->
            length tr = length (turn_prompts (split SEPARATOR s))
            /\ messages_of o
               = conversation (turn_prompts (split SEPARATOR s)) (results_of o)))
  /\ (~ occurs SEPARATOR s ->
      split SEPARATOR s = [s]
      /\ (s ≠ "" -> turn_prompts (split SEPARATOR s) = [s])
      /\ (s = "" -> turn_prompts (split SEPARATOR s) = [])).
Proof.
  split; [done|].
  split; [apply join_split, SEPARATOR_nonempty|].
  split; [apply split_segments_free, SEPARATOR_nonempty|].
  split; [done|]. split.
  - intros o w' tr Hr.
    apply round_shape in Hr as [([=] & _)|(_ & HM & Hlen & Hev)].
    change (request_turn_prompts (s :: others) true)
      with (turn_prompts (split SEPARATOR s)) in *.
    split; [destruct (is_returned o); lia|]. split.
    + intros j ev Hj. pose proof (lookup_lt_Some _ _ _ Hj) as Hjlt.
      destruct (Hev _ _ Hj) as (out & -> & _).
      destruct (lookup_lt_is_Some_2 (turn_prompts (split SEPARATOR s)) j)
        as [q Hq]; [destruct (is_returned o); lia|].
      eexists q, _, out. split; [done|]. split; [done|].
      apply conversation_last; [done|]. destruct (is_returned o); lia.
    + intros Hret. rewrite Hret in Hlen. destruct Hlen as [Hl1 Hl2].
      split; [done|]. by rewrite HM, Hl1, firstn_all.
  - intros Hno. rewrite (split_no_separator _ s Hno).
    split; [done|]. unfold turn_prompts. split.
    + intros Hs. by rewrite filter_cons_True by (by apply nonempty_length).
    + by intros ->.
Qed.

(** C1.  What the code does on a batch of two prompts with [multi_turn]
    false and a service that answers every call: the call for the second
    prompt submits the first prompt and its reply as well.  And when the
    call for the second prompt fails once, the first prompt is submitted
    again. *)
Theorem second_prompt_is_sent_with_the_first :
  request scripted_call example_model ["a"; "b"] ∅ false []
  = (inr [ {| reply_role := "assistant"; reply_content := "re: a" |};
           {| reply_role := "assistant"; reply_content := "re: b" |} ],
     [],
     [ EvCall "qwen-turbo" [user_message "a"] ∅ (inr (ok_response "re: a"));
       EvCall "qwen-turbo"
         [user_message "a";
          {| role := assistant; content := "re: a" |};
          user_message "b"]
         ∅ (inr (ok_response "re: b")) ])
  /\ (request scripted_call example_model ["a"; "b"] ∅ false
        [inr (ok_response "A"); inr (bad_response 500 "down")]).2
     = [ EvCall "qwen-turbo" [user_message "a"] ∅ (inr (ok_response "A"));
         EvCall "qwen-turbo"
           [user_message "a"; {| role := assistant; content := "A" |};
            user_message "b"]
           ∅ (inr (bad_response 500 "down"));
         EvWarning "Receive error: down"; EvWarning "retrying..."; EvSleep 1;
         EvCall "qwen-turbo" [user_message "a"] ∅ (inr (ok_response "re: a"));
         EvCall "qwen-turbo"
           [user_message "a"; {| role := assistant; content := "re: a" |};
            user_message "b"]
           ∅ (inr (ok_response "re: b")) ].
Proof. split; by vm_compute. Qed.

(** * Instances on the scripted service *)

Lemma occursb_spec (sep s : string) : occursb sep s = true <-> occurs sep s.
Proof.
  induction s as [|c s IH]; cbn [occursb].
  - rewrite orb_false_r, prefix_true_iff. split.
    + intros [rest Hr]. exists "", rest. by rewrite string_app_empty_l.
    + intros (a & b & H). destruct a; [|by rewrite string_app_cons in H].
      rewrite string_app_empty_l in H. by exists b.
  - rewrite orb_true_iff, prefix_true_iff, IH. split.
    + intros [[rest Hr]|(a & b & H)].
      * exists "", rest. by rewrite string_app_empty_l.
      * exists (String c a), b. by rewrite string_app_cons, H.
    + intros (a & b & H). destruct a as [|x a].
      * left. exists b. by rewrite string_app_empty_l in H.
      * right. rewrite string_app_cons in H. exists a, b. congruence.
Qed.

Lemma not_occurs_by_computation (sep s : string) :
  occursb sep s = false -> ~ occurs sep s.
Proof. intros Hb Ho. apply occursb_spec in Ho. congruence. Qed.

(** The scenario of two turns whose first round fails once: two replies
    are returned and the round that succeeds ends with four messages. *)
Example two_turns_with_one_failure :
  (request scripted_call example_model ["Hi__SEPARATOR__How are you?"] ∅ true
     [inr (ok_response "reply0"); inl (UpstreamError "timeout");
      inr (ok_response "reply1"); inr (ok_response "reply2")]).1.1
  = inr [ {| reply_role := "assistant"; reply_content := "reply1" |};
          {| reply_role := "assistant"; reply_content := "reply2" |} ]
  /\ messages_of
       (round scripted_call "qwen-turbo" ∅ ["Hi__SEPARATOR__How are you?"] true
          [inr (ok_response "reply1"); inr (ok_response "reply2")]).1.1
     = [ user_message "Hi"; {| role := assistant; content := "reply1" |};
         user_message "How are you?";
         {| role := assistant; content := "reply2" |} ].
Proof. split; by vm_compute. Qed.

Lemma set_generation_args_default_and_precedence_witness :
  (set_generation_args example_model ∅).2 !! "max_tokens" = Some (VInt 1024)
  /\ (set_generation_args warm_model {[ "temperature" := VInt 0 ]}).2 !! "temperature"
     = Some (VFloat (7 # 10)).
Proof.
  split.
  - apply (proj1 (set_generation_args_default_and_precedence example_model ∅));
      reflexivity.
  - apply (proj2 (set_generation_args_default_and_precedence warm_model
                    {[ "temperature" := VInt 0 ]}) "temperature" (VFloat (7 # 10))).
    + left.
    + reflexivity.
    + discriminate.
Defined.

Lemma seed_follows_temperature_witness :
  (set_generation_args example_model {[ "temperature" := VInt 0 ]}).2 !! "seed"
  = Some (VInt 2023)
  /\ (set_generation_args warm_model {[ "temperature" := VInt 0 ]}).2 !! "seed" = None.
Proof.
  split.
  - apply (proj1 (seed_follows_temperature scripted_call example_model
                    {[ "temperature" := VInt 0 ]}) (VInt 0)); reflexivity.
  - apply (proj1 (proj2 (seed_follows_temperature scripted_call warm_model
                           {[ "temperature" := VInt 0 ]})) (VFloat (7 # 10)));
      reflexivity.
Defined.

Lemma exhausted_retries_raise_connection_error_witness :
  exists w' tr,
    request down_call example_model ["Hi"] ∅ false tt
      = (inl (ConnectionError "Dashscope API error"), w', tr)
    /\ length (filter (fun ev => is_sleep ev = true) tr) = 10.
Proof.
  apply (proj1 (exhausted_retries_raise_connection_error down_call
                  (fun _ => None) (fun _ => inr tt) example_args example_model
                  [init_info_line "sk-0123456789abcdef"]
                  ["Hi"] ∅ false tt eq_refl)).
  vm_compute. reflexivity.
Defined.



Lemma conversation_invariant_witness :
  length (messages_of
            (round scripted_call "qwen-turbo" ∅ ["Hi__SEPARATOR__How are you?"]
               true []).1.1)
  <= 2 * length (round scripted_call "qwen-turbo" ∅
                   ["Hi__SEPARATOR__How are you?"] true []).2
  /\ alternates user
       (messages_of
          (round scripted_call "qwen-turbo" ∅ ["Hi__SEPARATOR__How are you?"]
             true []).1.1) = true.
Proof.
  destruct (conversation_invariant scripted_call "qwen-turbo" ∅
              ["Hi__SEPARATOR__How are you?"] true [] _ _ _ eq_refl)
    as (_ & H1 & H2 & _).
  split; [exact H1|exact H2].
Defined.

Lemma restart_begins_from_empty_state_witness :
  exists q, head (request_turn_prompts ["a"; "b"] false) = Some q
            /\ [user_message "a"] = [user_message q].
Proof.
  destruct (restart_begins_from_empty_state scripted_call "qwen-turbo" ∅ 10
              ["a"; "b"] false
              [inr (ok_response "A"); inr (bad_response 500 "down")]
              _ _ _ 4 eq_refl eq_refl) as (_ & H & _).
  exact (H "qwen-turbo" [user_message "a"] ∅ (inr (ok_response "re: a")) eq_refl).
Defined.

Lemma generation_answers_follow_turn_prompts_witness :
  exists answers pre calls,
    AnswerList ["re: a"; "re: b"] = AnswerList answers
    /\ (generation scripted_call (set_generation_args example_model ∅).1
          ["a"; "b"] []).2 = pre ++ calls
    /\ answers_aligned "qwen-turbo" (set_generation_args example_model ∅).2
         ["a"; "b"] calls answers.
Proof.
  assert (generation_kwargs (set_generation_args example_model ∅).1
          = Some (set_generation_args example_model ∅).2) as Hk
    by (vm_compute; reflexivity).
  assert (multi_turn (set_generation_args example_model ∅).1 = Some (VBool false))
    as Hm by (vm_compute; reflexivity).
  assert (generation scripted_call (set_generation_args example_model ∅).1
            ["a"; "b"] []
          = (inr (AnswerList ["re: a"; "re: b"]), [],
             (generation scripted_call (set_generation_args example_model ∅).1
                ["a"; "b"] []).2)) as Hg
    by (vm_compute; reflexivity).
  destruct (generation_answers_follow_turn_prompts scripted_call
              (set_generation_args example_model ∅).1
              (set_generation_args example_model ∅).2 (VBool false)
              ["a"; "b"] [] (AnswerList ["re: a"; "re: b"]) _ _ Hk Hm Hg)
    as (answers & pre & calls & H1 & H2 & H3 & _).
  exists answers, pre, calls. split; [exact H1|]. split; [exact H2|exact H3].
Defined.

Lemma multi_turn_prompt_is_split_into_turns_witness :
  split SEPARATOR "What is 2+2?" = ["What is 2+2?"]
  /\ turn_prompts (split SEPARATOR "What is 2+2?") = ["What is 2+2?"].
Proof.
  destruct (multi_turn_prompt_is_split_into_turns scripted_call "qwen-turbo" ∅
              "What is 2+2?" [] []) as (_ & _ & _ & _ & _ & H).
  destruct (H (not_occurs_by_computation SEPARATOR "What is 2+2?" eq_refl))
    as (H1 & H2 & _).
  split; [exact H1|]. apply H2. discriminate.
Defined.

(** C4 as stated fails on a batch with an empty prompt: two prompts, one
    answer, and that answer belongs to the second prompt. *)
Lemma empty_prompt_gets_no_answer :
  exists answers,
    (generation scripted_call (set_generation_args example_model ∅).1
       [""; "a"] []).1.1 = inr (AnswerList answers)
    /\ length answers <> length [""; "a"]
    /\ answers !! 0 = Some "re: a".
Proof. exists ["re: a"]. split; [by vm_compute|]. split; [cbn; lia|done]. Qed.

(** C5 as stated fails on the empty input: it holds no separator, and it
    yields no turn prompt, so the request issues no call and returns no
    reply. *)
Lemma empty_input_has_no_turn_prompt :
  ~ occurs SEPARATOR ""
  /\ length (request_turn_prompts [""] true) <> 1
  /\ request scripted_call example_model [""] ∅ true [] = (inr [], [], []).
Proof.
  split; [apply not_occurs_empty, SEPARATOR_nonempty|].
  split; [by vm_compute|by vm_compute].
Qed.

(** * Further properties of the code *)

(** ** The masked key *)

Lemma string_take_drop n (s : string) : string_take n s +:+ string_drop n s = s.
Proof.
  revert s. induction n as [|n IH]; intros [|c s]; try done.
  cbn [string_take string_drop]. by rewrite string_app_cons, IH.
Qed.

Lemma string_take_length n (s : string) :
  String.length (string_take n s) = n `min` String.length s.
Proof.
  revert s. induction n as [|n IH]; intros [|c s]; try done.
  cbn [string_take String.length]. rewrite IH. lia.
Qed.

Lemma string_drop_length n (s : string) :
  String.length (string_drop n s) = String.length s - n.
Proof.
  revert s. induction n as [|n IH]; intros [|c s]; try done.
  cbn [string_drop String.length]. by rewrite IH.
Qed.

Lemma string_take_all n (s : string) : String.length s <= n -> string_take n s = s.
Proof.
  revert s. induction n as [|n IH]; intros [|c s] Hl; try done.
  - cbn in Hl. lia.
  - cbn [string_take]. rewrite IH; [done|]. cbn in Hl. lia.
Qed.

Lemma string_drop_all n (s : string) : String.length s <= n -> string_drop n s = "".
Proof.
  revert s. induction n as [|n IH]; intros [|c s] Hl; try done.
  - cbn in Hl. lia.
  - cbn [string_drop]. apply IH. cbn in Hl. lia.
Qed.

Lemma string_drop_drop a b (s : string) :
  string_drop a (string_drop b s) = string_drop (b + a) s.
Proof.
  revert s. induction b as [|b IH]; intros s; [done|].
  destruct s as [|c s]; [by destruct a|]. apply IH.
Qed.

Lemma string_take_app (a b : string) : string_take (String.length a) (a +:+ b) = a.
Proof.
  induction a as [|c a IH]; [by destruct b|].
  rewrite string_app_cons. cbn [String.length string_take]. by rewrite IH.
Qed.

Lemma string_drop_app (a b : string) : string_drop (String.length a) (a +:+ b) = b.
Proof.
  induction a as [|c a IH]; [by destruct b|].
  rewrite string_app_cons. cbn [String.length string_drop]. by rewrite IH.
Qed.

Lemma string_repeat_length (c : string) n :
  String.length (string_repeat c n) = n * String.length c.
Proof.
  induction n as [|n IH]; [done|].
  cbn [string_repeat]. rewrite string_length_app, IH. lia.
Qed.

(** X1.  The masked key of the info line has [min 8 n + 23 + min 4 n]
    characters for a key of [n] characters: 35 for every key of eight
    characters or more, so that the log does not tell such keys apart by
    their length. *)
Theorem private_key_length (key : string) :
  String.length (private_key key)
    = 8 `min` String.length key + 23 + 4 `min` String.length key
  /\ (8 <= String.length key -> String.length (private_key key) = 35).
Proof.
  assert (String.length (private_key key)
          = 8 `min` String.length key + 23 + 4 `min` String.length key) as H.
  { unfold private_key, py_slice_to, py_slice_last.
    rewrite !string_length_app, string_take_length, string_drop_length,
      string_repeat_length.
    change (String.length "*") with 1. lia. }
  split; [done|]. intros Hl. rewrite H. lia.
Qed.

(** X2.  Of a key of twelve characters or more the info line shows the
    first eight and the last four and nothing else: the characters
    between them do not reach the masked key, which is the same for all
    keys that agree on these twelve. *)
Theorem private_key_hides_the_middle (first middle last : string) :
  String.length first = 8 ->
  String.length last = 4 ->
  private_key (first +:+ middle +:+ last)
    = first +:+ string_repeat "*" 23 +:+ last.
Proof.
  intros Hf Hl. unfold private_key, py_slice_to, py_slice_last.
  rewrite <- Hf at 1. rewrite string_take_app.
  rewrite <- !(string_app_assoc first middle last).
  replace (String.length ((first +:+ middle) +:+ last) - 4)
    with (String.length (first +:+ middle))
    by (rewrite !string_length_app; lia).
  by rewrite string_drop_app.
Qed.

(** X3.  A key of at most twelve characters is written to the log in
    full: its first eight characters and the end of its last four make up
    the whole key, and a key of at most eight characters is the very
    beginning of the masked key. *)
Theorem private_key_shows_a_short_key (key : string) :
  String.length key <= 12 ->
  key = py_slice_to 8 key
        +:+ string_drop (12 - String.length key) (py_slice_last 4 key)
  /\ (String.length key <= 8 -> String.prefix key (private_key key) = true).
Proof.
  intros Hl. split.
  - unfold py_slice_to, py_slice_last. rewrite string_drop_drop.
    destruct (decide (4 <= String.length key)) as [H4|H4].
    + replace (String.length key - 4 + (12 - String.length key)) with 8 by lia.
      by rewrite string_take_drop.
    + rewrite (string_drop_all _ key) by lia.
      rewrite string_app_empty_r. by rewrite string_take_all by lia.
  - intros H8. apply prefix_true_iff. unfold private_key, py_slice_to.
    rewrite string_take_all by done. by eexists.
Qed.

(** ** More on the option dictionary *)

Lemma resolve_generation_kwargs_unlisted (a : ModelArguments)
    (extra : gmap string Value) key :
  key ∉ option_keys -> key ≠ "seed" ->
  (resolve_generation_kwargs a extra).1 !! key = None.
Proof.
  intros Hkey Hseed. unfold resolve_generation_kwargs.
  pose proof (loop_lookup_unlisted a extra key Hkey) as Hl.
  destruct (foldl (resolve_key a) (∅, extra) option_keys) as [kw ex].
  cbn [fst snd] in *.
  destruct (py_eq_zero _); cbn [fst]; [|done].
  by rewrite lookup_insert_ne.
Qed.

Lemma resolve_generation_kwargs_extra (a : ModelArguments)
    (extra : gmap string Value) key :
  key ∉ option_keys ->
  (resolve_generation_kwargs a extra).2 !! key = extra !! key.
Proof.
  intros Hkey. unfold resolve_generation_kwargs.
  destruct (resolve_keys_other a option_keys (∅, extra) key Hkey) as [_ Hl].
  destruct (foldl (resolve_key a) (∅, extra) option_keys) as [kw ex].
  by cbn [fst snd] in *.
Qed.

Lemma multi_turn_not_listed : "multi_turn" ∉ option_keys.
Proof.
  unfold option_keys. rewrite !not_elem_of_cons.
  repeat split; try discriminate. apply not_elem_of_nil.
Qed.

Lemma set_generation_args_multi_turn {T : Type} (self : Dashscope T)
    (extra : gmap string Value) :
  multi_turn (set_generation_args self extra).1
    = Some (dict_get "multi_turn" (VBool false) extra).
Proof.
  unfold set_generation_args.
  pose proof (resolve_generation_kwargs_extra (args self) extra "multi_turn"
                multi_turn_not_listed) as Hmt.
  destruct (resolve_generation_kwargs (args self) extra) as [kw ex].
  cbn [snd] in Hmt. rewrite <- dict_pop_value.
  unfold dict_pop. rewrite Hmt. by destruct (extra !! "multi_turn").
Qed.

(** X4.  The dictionary [set_generation_args] builds holds nothing but
    the seven listed options and the seed: no other extra argument, and so
    not [multi_turn], is passed on to the service; and no listed option is
    present with the value [None]. *)
Theorem resolved_options_are_the_listed_ones {T : Type}
    (self : Dashscope T) (extra : gmap string Value) (key : string) :
  (is_Some ((set_generation_args self extra).2 !! key) ->
   key ∈ option_keys \/ key = "seed")
  /\ (key ∈ option_keys ->
      (set_generation_args self extra).2 !! key ≠ Some VNone).
Proof.
  destruct (set_generation_args_returns self extra) as (-> & _). split.
  - intros Hsome. destruct (decide (key ∈ option_keys)) as [|Hkey]; [by left|].
    destruct (decide (key = "seed")) as [|Hseed]; [by right|].
    rewrite resolve_generation_kwargs_unlisted in Hsome by done.
    by destruct Hsome.
  - intros Hkey. rewrite resolve_generation_kwargs_listed by done.
    destruct (is_None (resolved (args self) extra key)) eqn:Hn; [done|].
    intros [= Heq]. by rewrite Heq in Hn.
Qed.

(** X5.  For a listed option that the model arguments leave unset, the
    extra argument is the resolved value; when the extra arguments leave
    it unset too, the option is absent, [max_tokens] excepted. *)
Theorem extra_argument_is_the_fallback {T : Type}
    (self : Dashscope T) (extra : gmap string Value) (key : string) :
  key ∈ option_keys ->
  getattr (args self) key = VNone ->
  (forall v, extra !! key = Some v -> v ≠ VNone ->
     (set_generation_args self extra).2 !! key = Some v)
  /\ (dict_get key VNone extra = VNone -> key ≠ "max_tokens" ->
      (set_generation_args self extra).2 !! key = None).
Proof.
  intros Hkey Hattr.
  destruct (set_generation_args_returns self extra) as (-> & _).
  rewrite resolve_generation_kwargs_listed by done.
  unfold resolved. rewrite Hattr. cbn [is_None]. split.
  - intros v Hv Hne. unfold dict_get. rewrite Hv.
    assert (is_None v = false) as Hn by (by destruct v).
    by rewrite !Hn, andb_false_r, Hn.
  - intros Hex Hmax. rewrite Hex. cbn [is_None].
    apply String.eqb_neq in Hmax. by rewrite Hmax.
Qed.

(** X6.  The mode [set_generation_args] stores is the extra argument
    [multi_turn], and [False] without one: the model arguments have no
    say in it. *)
Theorem multi_turn_comes_from_the_extra_arguments {T : Type}
    (self : Dashscope T) (extra : gmap string Value) :
  multi_turn (set_generation_args self extra).1
    = Some (dict_get "multi_turn" (VBool false) extra)
  /\ (forall a' : ModelArguments,
        multi_turn
          (set_generation_args
             {| api_key := api_key self; args := a'; name := name self;
                model_type := model_type self; tokenizer := tokenizer self;
                max_try_times := max_try_times self;
                generation_kwargs := generation_kwargs self;
                multi_turn := multi_turn self |} extra).1
        = multi_turn (set_generation_args self extra).1).
Proof.
  split; [apply set_generation_args_multi_turn|].
  intros a'. by rewrite !set_generation_args_multi_turn.
Qed.

(** X7.  A second call of [set_generation_args] starts again from the
    model arguments: nothing of the extra arguments of an earlier call is
    kept, neither in the options nor in the mode. *)
Theorem set_generation_args_forgets_the_earlier_call {T : Type}
    (self : Dashscope T) (extra1 extra2 : gmap string Value) :
  set_generation_args (set_generation_args self extra1).1 extra2
    = set_generation_args self extra2.
Proof.
  unfold set_generation_args at 2.
  destruct (resolve_generation_kwargs (args self) extra1) as [kw1 ex1].
  destruct (dict_pop "multi_turn" (VBool false) ex1) as [mt1 ex1'].
  cbn [fst]. unfold set_generation_args. cbn [args api_key name model_type
    tokenizer max_try_times]. done.
Qed.

(** X8.  Every dictionary [set_generation_args] builds holds a value for
    [max_tokens], and every call [generation] then issues is made with
    options that hold it. *)
Theorem max_tokens_is_always_sent {T World : Type}
    (call : World -> string -> list Message -> gmap string Value
            -> (Exn + Response) * World)
    (self : Dashscope T) (extra : gmap string Value) :
  (exists v, (set_generation_args self extra).2 !! "max_tokens" = Some v
             /\ v ≠ VNone)
  /\ (forall inputs w md ms kw out,
        EvCall md ms kw out
          ∈ (generation call (set_generation_args self extra).1 inputs w).2 ->
        is_Some (kw !! "max_tokens")).
Proof.
  assert (exists v, (set_generation_args self extra).2 !! "max_tokens" = Some v
                    /\ v ≠ VNone) as Hmax.
  { destruct (set_generation_args_returns self extra) as (-> & _).
    rewrite resolve_generation_kwargs_listed by (unfold option_keys; set_solver).
    unfold resolved. rewrite String.eqb_refl. cbn [andb].
    destruct (is_None (if is_None (getattr (args self) "max_tokens")
                       then dict_get "max_tokens" VNone extra
                       else getattr (args self) "max_tokens")) eqn:Hn.
    - by exists (VInt 1024).
    - rewrite Hn. eexists. split; [done|]. intros Heq. by rewrite Heq in Hn. }
  split; [done|].
  intros inputs w md ms kw out. unfold generation.
  destruct (set_generation_args_returns self extra) as (Hret & -> & _).
  rewrite set_generation_args_multi_turn. unfold request.
  destruct (attempts _ _ _ _ _ _ _) as [[[e|results] w'] tr] eqn:Ha;
    cbn [snd]; intros Hin;
    destruct (attempts_calls_kwargs _ _ _ _ _ _ _ _ _ _ _ _ _ _ Ha Hin) as [_ ->];
    destruct Hmax as (v & Hv & _); rewrite Hret in Hv; by eexists.
Qed.

(** ** More on the retry loop *)

(** X9.  Retry budgets add up: the loop with [n + m] attempts is the loop
    with [n] attempts, followed, when these are used up, by the loop with
    [m] attempts from the world they left.  So a request that succeeds
    within [n] attempts gives the same result, with the same calls, under
    every larger budget. *)
Theorem retry_budgets_add_up {World : Type}
    (call : World -> string -> list Message -> gmap string Value
            -> (Exn + Response) * World)
    (model : string) (kwargs : gmap string Value) (prompt : list string)
    (mt : bool) (n m : nat) (w : World) :
  attempts call model kwargs (n + m) prompt mt w
  = match attempts call model kwargs n prompt mt w with
    | (inr results, w', tr) => (inr results, w', tr)
    | (inl _, w', tr) =>
        let '(r, w'', tr') := attempts call model kwargs m prompt mt w' in
        (r, w'', tr ++ tr')
    end.
Proof.
  revert w. induction n as [|n IH]; intros w.
  - cbn [Nat.add attempts].
    by destruct (attempts call model kwargs m prompt mt w) as [[r w''] tr'].
  - cbn [Nat.add attempts].
    destruct (round call model kwargs prompt mt w)
      as [[[R M|e em R M] w1] tr1]; [done|].
    rewrite IH.
    destruct (attempts call model kwargs n prompt mt w1)
      as [[[e'|results] w'] tr]; [|done].
    destruct (attempts call model kwargs m prompt mt w') as [[r w''] tr'].
    by rewrite <- !app_assoc.
Qed.

(** X10.  A request with [n] attempts issues at most [n] times as many
    calls as there are turn prompts and sleeps at most [n] times, and one
    that returns results has slept fewer than [n] times. *)
Theorem request_cost_is_bounded {World : Type}
    (call : World -> string -> list Message -> gmap string Value
            -> (Exn + Response) * World)
    (model : string) (kwargs : gmap string Value) (prompt : list string)
    (mt : bool) (n : nat) (w : World)
    (r : Exn + list Reply) (w' : World) (tr : list Event) :
  attempts call model kwargs n prompt mt w = (r, w', tr) ->
  length (filter (fun ev => is_call ev = true) tr)
    <= n * length (request_turn_prompts prompt mt)
  /\ length (filter (fun ev => is_sleep ev = true) tr) <= n
  /\ (forall results, r = inr results ->
        length (filter (fun ev => is_sleep ev = true) tr) < n).
Proof.
  revert w tr. induction n as [|n IH]; intros w tr Ha.
  - cbn in Ha. injection Ha as <- <- <-. cbn. split; [lia|]. split; [lia|done].
  - apply attempts_inv in Ha
      as [(M & R & Hr & ->)|(e & em & R & M & w1 & tr1 & tr2 & Hr & Ha & ->)].
    + destruct (round_trace_bounds _ _ _ _ _ _ _ _ _ Hr) as [Hs Hl].
      rewrite Hs. cbn [length].
      pose proof (length_filter (fun ev => is_call ev = true) tr). 
      split; [lia|]. split; [lia|]. intros; lia.
    + destruct (round_trace_bounds _ _ _ _ _ _ _ _ _ Hr) as [Hs Hl].
      destruct (IH _ _ Ha) as (Hc & Hsl & Hok).
      rewrite !filter_app, handler_events_sleeps, Hs, !length_app.
      assert (filter (fun ev => is_call ev = true) (handler_events em) = [])
        as -> by reflexivity.
      pose proof (length_filter (fun ev => is_call ev = true) tr1).
      cbn [length]. split; [lia|]. split; [lia|].
      intros results Hres. specialize (Hok results Hres). lia.
Qed.

(** X11.  A request whose batch holds no turn prompt (an empty batch
    without [multi_turn], or nothing but empty prompts or segments)
    returns the empty list at once, with no call, whatever the state of
    the service. *)
Theorem request_without_turn_prompt_returns_at_once {T World : Type}
    (call : World -> string -> list Message -> gmap string Value
            -> (Exn + Response) * World)
    (self : Dashscope T) (prompt : list string) (kw : gmap string Value)
    (mt : bool) (w : World) :
  0 < max_try_times self ->
  is_Some (request_parts prompt mt) ->
  request_turn_prompts prompt mt = [] ->
  request call self prompt kw mt w = (inr [], w, []).
Proof.
  unfold request, request_turn_prompts. intros Hn [parts Hparts] Hnil.
  destruct (max_try_times self) as [|n]; [lia|].
  cbn [attempts]. unfold round. rewrite Hparts in *.
  by rewrite turns_without_turn_prompt.
Qed.

(** X12.  With [multi_turn] true and an empty batch, [prompt[0]] raises
    in every attempt: the request issues no call and leaves the world as
    it is, logs the two warnings and sleeps once for each attempt, and
    raises the connection error. *)
Theorem multi_turn_request_on_empty_batch {T World : Type}
    (call : World -> string -> list Message -> gmap string Value
            -> (Exn + Response) * World)
    (self : Dashscope T) (kw : gmap string Value) (w : World) :
  request call self [] kw true w
  = (inl (ConnectionError "Dashscope API error"), w,
     concat (replicate (max_try_times self) (handler_events "EMPTY_ERROR_MSG"))).
Proof.
  unfold request. induction (max_try_times self) as [|n IH]; [done|].
  cbn [attempts]. unfold round. cbn [request_parts]. by rewrite IH.
Qed.

(** X13.  The warning that follows a failed call holds the message of
    the response when the call returned with a status that is not OK, and
    the text [EMPTY_ERROR_MSG] when the call raised or when its output
    had no first choice: what the exception said is not logged. *)
Theorem warning_holds_the_status_message_only {World : Type}
    (call : World -> string -> list Message -> gmap string Value
            -> (Exn + Response) * World)
    (model : string) (kwargs : gmap string Value) (prompt : list string)
    (mt : bool) (n : nat) (w : World)
    (r : Exn + list Reply) (w' : World) (tr : list Event)
    (j : nat) (md : string) (ms : list Message) (kw : gmap string Value)
    (out : Exn + Response) :
  attempts call model kwargs n prompt mt w = (r, w', tr) ->
  tr !! j = Some (EvCall md ms kw out) ->
  failed out = true ->
  tr !! (j + 1) = Some (EvWarning ("Receive error: " +:+ error_msg_after out)).
Proof.
  revert w tr j. induction n as [|n IH]; intros w tr j Ha Hj Hf.
  - cbn in Ha. by injection Ha as <- <- <-.
  - apply attempts_inv in Ha
      as [(M & R & Hr & ->)|(e & em & R & M & w1 & tr1 & tr2 & Hr & Ha & ->)].
    + by destruct (round_failed_call _ _ _ _ _ _ _ _ _ _ _ _ _ _ Hr Hj Hf).
    + destruct (decide (j < length tr1)) as [Hlt|Hge].
      * rewrite lookup_app_l in Hj by done.
        destruct (round_failed_call _ _ _ _ _ _ _ _ _ _ _ _ _ _ Hr Hj Hf)
          as [_ Hlast].
        assert (is_Some (request_parts prompt mt)) as Hparts.
        { apply round_shape in Hr as [(_ & -> & _)|(? & _)]; done. }
        destruct (round_caught_by _ _ _ _ _ _ _ _ _ _ _ _ Hr Hparts)
          as (out' & Hl & _ & _ & ->).
        rewrite last_lookup in Hl.
        replace (pred (length tr1)) with j in Hl by lia.
        rewrite Hj in Hl. injection Hl as _ _ _ <-.
        rewrite lookup_app_r by lia.
        by replace (j + 1 - length tr1) with 0 by lia.
      * rewrite lookup_app_r in Hj by lia.
        destruct (j - length tr1) as [|[|[|j']]] eqn:Hj'; cbn in Hj; try done.
        pose proof (IH _ _ _ Ha Hj Hf) as H1.
        rewrite lookup_app_r by lia.
        by replace (j + 1 - length tr1) with (3 + (j' + 1)) by lia.
Qed.

(** X14.  The loop never retries without cause: when the batch has a
    first element to read, every sleep of the trace comes three events
    after a call that failed. *)
Theorem every_sleep_follows_a_failed_call {World : Type}
    (call : World -> string -> list Message -> gmap string Value
            -> (Exn + Response) * World)
    (model : string) (kwargs : gmap string Value) (prompt : list string)
    (mt : bool) (n : nat) (w : World)
    (r : Exn + list Reply) (w' : World) (tr : list Event) (i : nat) (s : Z) :
  attempts call model kwargs n prompt mt w = (r, w', tr) ->
  is_Some (request_parts prompt mt) ->
  tr !! i = Some (EvSleep s) ->
  exists j ms out,
    i = j + 3
    /\ tr !! j = Some (EvCall model ms kwargs out)
    /\ failed out = true.
Proof.
  intros Ha Hparts. revert w tr i Ha.
  induction n as [|n IH]; intros w tr i Ha Hi.
  - cbn in Ha. by injection Ha as <- <- <-.
  - apply attempts_inv in Ha
      as [(M & R & Hr & ->)|(e & em & R & M & w1 & tr1 & tr2 & Hr & Ha & ->)].
    + by apply (round_calls_only _ _ _ _ _ _ _ _ _ _ _ Hr) in Hi.
    + destruct (decide (i < length tr1)) as [Hlt|Hge].
      * rewrite lookup_app_l in Hi by done.
        by apply (round_calls_only _ _ _ _ _ _ _ _ _ _ _ Hr) in Hi.
      * rewrite lookup_app_r in Hi by lia.
        destruct (i - length tr1) as [|[|[|i']]] eqn:Hi'; cbn in Hi; try done.
        -- destruct (round_caught_by _ _ _ _ _ _ _ _ _ _ _ _ Hr Hparts)
             as (out & Hl & Hf & _).
           rewrite last_lookup in Hl.
           pose proof (lookup_lt_Some _ _ _ Hl) as Hlt.
           exists (pred (length tr1)), M, out. split; [lia|].
           split; [|done]. by apply lookup_app_l_Some.
        -- destruct (IH _ _ _ Ha Hi) as (j & ms & out & -> & Hj & Hf).
           exists (length tr1 + 3 + j), ms, out. split; [lia|].
           split; [|done]. rewrite lookup_app_r by lia.
           by replace (length tr1 + 3 + j - length tr1) with (3 + j) by lia.
Qed.

(** X15.  When no call fails and the batch has a first element to read
    (any batch without [multi_turn], a non-empty one with it), a request
    with at least one attempt needs one round: it returns one reply for
    each turn prompt, after as many calls, without a warning or a
    sleep. *)
Theorem healthy_service_needs_one_round {World : Type}
    (call : World -> string -> list Message -> gmap string Value
            -> (Exn + Response) * World)
    (model : string) (kwargs : gmap string Value) (prompt : list string)
    (mt : bool) (n : nat) (w : World) :
  (forall w md ms kw, failed (call w md ms kw).1 = false) ->
  is_Some (request_parts prompt mt) ->
  exists results w' tr,
    attempts call model kwargs (S n) prompt mt w = (inr results, w', tr)
    /\ length results = length (request_turn_prompts prompt mt)
    /\ length tr = length (request_turn_prompts prompt mt)
    /\ Forall (fun ev => is_call ev = true) tr.
Proof.
  intros Hup [parts Hparts]. cbn [attempts].
  destruct (round call model kwargs prompt mt w) as [[o w1] tr1] eqn:Hr.
  assert (is_returned o = true) as Hret.
  { unfold round in Hr. rewrite Hparts in Hr.
    pose proof (turns_returned_when_calls_succeed call model kwargs parts [] []
                  "EMPTY_ERROR_MSG" w Hup) as H.
    by rewrite Hr in H. }
  destruct o as [R M|]; [|done]. exists R, w1, tr1. split; [done|].
  pose proof Hr as Hshape.
  apply round_shape in Hshape as [(_ & _ & ? & _)|(_ & _ & Hlen & _)]; [done|].
  cbn in Hlen. split; [lia|]. split; [lia|].
  apply Forall_forall. intros ev Hev. apply list_elem_of_lookup in Hev as [j Hj].
  by apply (round_calls_only _ _ _ _ _ _ _ _ _ _ _ Hr) in Hj.
Qed.

(** X16.  Once [set_generation_args] has run, [generation] finds its two
    attributes, and of the exceptions of this model (those of class
    [Exception], which the handler of [request] catches whether the call
    raises them or the reading of its response does) none reaches the
    caller of [generation]: what it raises is the connection error of
    [request]. *)
Theorem generation_raises_the_connection_error_only {T World : Type}
    (call : World -> string -> list Message -> gmap string Value
            -> (Exn + Response) * World)
    (self : Dashscope T) (extra : gmap string Value)
    (inputs : list string) (w : World) (e : Exn) :
  (generation call (set_generation_args self extra).1 inputs w).1.1 = inl e ->
  e = ConnectionError "Dashscope API error".
Proof.
  unfold generation.
  destruct (set_generation_args_returns self extra) as (_ & -> & _).
  rewrite set_generation_args_multi_turn. unfold request.
  destruct (attempts _ _ _ _ _ _ _) as [[[e'|results] w'] tr] eqn:Ha;
    cbn [fst]; [|done].
  intros [= <-]. by apply attempts_result in Ha as [-> _].
Qed.

(** ** The WinoGender dataset *)

Lemma format_instance_keeps_other_fields
    (instance formatted : gmap string WinoGender.Obj) (key : string) :
  WinoGender.format_instance instance = inr formatted ->
  key ≠ "options" -> formatted !! key = instance !! key.
Proof.
  unfold WinoGender.format_instance.
  destruct (instance !! "occupation") as [o|]; [|done].
  destruct (instance !! "participant") as [p|]; [|done].
  intros [= <-] Hkey. by apply lookup_insert_ne.
Qed.

(** X17.  [format_instance] raises [KeyError] exactly when [occupation]
    or, [occupation] being there, [participant] is missing; otherwise the
    instance it returns has the two of them, in this order, as its
    [options] and every other field as it was. *)
Theorem format_instance_sets_the_options_only
    (instance : gmap string WinoGender.Obj) :
  match WinoGender.format_instance instance with
  | inl e =>
      (e = WinoGender.KeyError "occupation" /\ instance !! "occupation" = None)
      \/ (e = WinoGender.KeyError "participant"
          /\ is_Some (instance !! "occupation")
          /\ instance !! "participant" = None)
  | inr formatted =>
      (exists occupation participant,
         instance !! "occupation" = Some occupation
         /\ instance !! "participant" = Some participant
         /\ formatted !! "options"
            = Some (WinoGender.OList [occupation; participant]))
      /\ (forall key, key ≠ "options" -> formatted !! key = instance !! key)
  end.
Proof.
  unfold WinoGender.format_instance.
  destruct (instance !! "occupation") as [o|] eqn:Ho; [|by left].
  destruct (instance !! "participant") as [p|] eqn:Hp; [|right; by eauto].
  split.
  - exists o, p. split; [done|]. split; [done|]. apply lookup_insert_eq.
  - intros key Hkey. by apply lookup_insert_ne.
Qed.

(** X18.  [format_instance] is idempotent: applied to an instance it has
    returned, it returns that instance again. *)
Theorem format_instance_is_idempotent
    (instance formatted : gmap string WinoGender.Obj) :
  WinoGender.format_instance instance = inr formatted ->
  WinoGender.format_instance formatted = inr formatted.
Proof.
  unfold WinoGender.format_instance.
  destruct (instance !! "occupation") as [o|] eqn:Ho; [|done].
  destruct (instance !! "participant") as [p|] eqn:Hp; [|done].
  intros [= <-].
  rewrite !lookup_insert_ne by discriminate. rewrite Ho, Hp.
  by rewrite insert_insert_eq.
Qed.

(** X19.  Formatting does not touch the labels: when each instance of a
    list is replaced by what [format_instance] returns for it, the
    references are what they were. *)
Theorem references_are_untouched_by_formatting
    (py_int : WinoGender.Obj -> option Z)
    (data formatted : list (gmap string WinoGender.Obj)) :
  Forall2 (fun instance f => WinoGender.format_instance instance = inr f)
    data formatted ->
  WinoGender.references py_int formatted = WinoGender.references py_int data.
Proof.
  induction 1 as [|instance f data formatted Hf _ IH]; [done|].
  cbn [WinoGender.references].
  rewrite (format_instance_keeps_other_fields _ _ "label" Hf) by discriminate.
  by rewrite IH.
Qed.

(** X20.  [references] returns a list exactly when every instance has a
    label that [int] reads, and the list then holds the integer of each
    label, in the order of the instances. *)
Theorem references_follow_the_labels
    (py_int : WinoGender.Obj -> option Z)
    (data : list (gmap string WinoGender.Obj)) (refs : list Z) :
  WinoGender.references py_int data = inr refs
  <-> Forall2 (fun instance z =>
                 exists label, instance !! "label" = Some label
                               /\ py_int label = Some z) data refs.
Proof.
  revert refs. induction data as [|instance rest IH]; intros refs.
  - cbn. split.
    + intros [= <-]. constructor.
    + intros H. by inversion H.
  - cbn [WinoGender.references]. split.
    + destruct (instance !! "label") as [label|] eqn:Hl; [|done].
      destruct (py_int label) as [z|] eqn:Hz; [|done].
      destruct (WinoGender.references py_int rest) as [e|zs]; [done|].
      intros [= <-]. constructor; [by exists label|]. by apply IH.
    + intros H. inversion H as [|? z ? zs (label & Hl & Hz) Hrest]; subst.
      rewrite Hl, Hz. apply IH in Hrest. by rewrite Hrest.
Qed.

(** ** Joining turn prompts and splitting them again *)

Section SplitJoin.

Variable sep : string.
Hypothesis sep_nonempty : sep ≠ "".

Lemma prefix_app_long (p x rest : string) :
  String.length p <= String.length x ->
  String.prefix p (x +:+ rest) = String.prefix p x.
Proof.
  revert x. induction p as [|a p IH]; intros x Hl.
  - by rewrite !prefix_empty.
  - destruct x as [|b x]; [cbn in Hl; lia|].
    rewrite string_app_cons, !prefix_cons.
    destruct (Ascii.ascii_dec a b); [|done]. apply IH. cbn in Hl. lia.
Qed.

Lemma ends_cleanly_head c (t : string) :
  ends_cleanly sep (String c t) = true ->
  String.prefix sep (String c t +:+ sep) = false /\ ends_cleanly sep t = true.
Proof.
  cbn [ends_cleanly]. intros [H1 H2]%andb_true_iff.
  split; [|done]. by destruct (String.prefix sep _).
Qed.

(** A segment that ends cleanly is cut off at the separator after it. *)
Lemma split_after_clean_segment (t rest : string) :
  ends_cleanly sep t = true ->
  split sep (t +:+ sep +:+ rest) = t :: split sep rest.
Proof.
  induction t as [|c t IH]; intros Hc.
  - rewrite string_app_empty_l. by apply split_match.
  - apply ends_cleanly_head in Hc as [Hp Hc].
    rewrite string_app_cons, split_char.
    + rewrite (IH Hc). done.
    + rewrite <- string_app_cons, <- string_app_assoc.
      rewrite prefix_app_long; [done|].
      rewrite string_length_app. lia.
Qed.

Lemma split_clean_segment (t : string) :
  ends_cleanly sep t = true -> split sep t = [t].
Proof.
  induction t as [|c t IH]; intros Hc; [done|].
  apply ends_cleanly_head in Hc as [Hp Hc].
  rewrite split_char, (IH Hc); [done|].
  destruct (String.prefix sep (String c t)) eqn:Hpre; [|done].
  apply prefix_true_iff in Hpre as [rest Hrest].
  assert (String.prefix sep (String c t +:+ sep) = true) as Habs; [|congruence].
  apply prefix_true_iff. exists (rest +:+ sep).
  by rewrite Hrest, string_app_assoc.
Qed.

Lemma split_join_clean (l : list string) :
  l ≠ [] ->
  Forall (fun t => ends_cleanly sep t = true) l ->
  split sep (join sep l) = l.
Proof.
  intros Hne Hall. induction Hall as [|t l Ht Hall IH]; [done|].
  destruct l as [|t' l].
  - cbn [join]. by apply split_clean_segment.
  - change (join sep (t :: t' :: l)) with (t +:+ sep +:+ join sep (t' :: l)).
    rewrite split_after_clean_segment by done. by rewrite IH.
Qed.

End SplitJoin.

(** X21.  Joining turn prompts with the separator and splitting the
    result gives the turn prompts back, provided that there is one at
    least and that none of them, followed by a separator, holds a
    separator that begins inside it (the empty list joins to the empty
    string, whose split is the list of one empty segment).  With or
    without a turn prompt in the list, a multi-turn request on the joined
    string has the non-empty ones among them as its turn prompts, in
    order. *)
Theorem joined_turn_prompts_are_recovered (l others : list string) :
  Forall (fun t => ends_cleanly SEPARATOR t = true) l ->
  (l ≠ [] -> split SEPARATOR (join SEPARATOR l) = l)
  /\ split SEPARATOR (join SEPARATOR []) = [""]
  /\ request_turn_prompts (join SEPARATOR l :: others) true = turn_prompts l.
Proof.
  intros Hall. split; [|split; [done|]].
  - intros Hne. by apply split_join_clean.
  - destruct l as [|t l]; [done|].
    unfold request_turn_prompts. cbn [request_parts].
    by rewrite (split_join_clean SEPARATOR SEPARATOR_nonempty (t :: l)).
Qed.


(** ** What the service is sent *)

Lemma conversation_user_messages qs rs m :
  m ∈ conversation qs rs -> role m = user -> content m ∈ qs.
Proof.
  revert rs. induction qs as [|q qs IH]; intros rs Hm Hrole.
  - by apply elem_of_nil in Hm.
  - destruct rs as [|r rs]; cbn [conversation] in Hm.
    + apply list_elem_of_singleton in Hm as ->. left.
    + apply elem_of_cons in Hm as [->|Hm]; [left|].
      apply elem_of_cons in Hm as [->|Hm]; [done|].
      right. by eapply IH.
Qed.

Lemma elem_of_take_list {A : Type} (l : list A) n x : x ∈ take n l -> x ∈ l.
Proof.
  intros Hx. apply list_elem_of_lookup in Hx as [i Hi].
  apply lookup_take_Some in Hi as [Hi _]. by eapply list_elem_of_lookup_2.
Qed.

(** X23.  Every conversation a request submits ends with the user
    message of a turn prompt, and each of its user messages holds a turn
    prompt: the service is never sent an empty user message, and with
    [multi_turn] true never one that holds the separator. *)
Theorem service_is_sent_turn_prompts_only {World : Type}
    (call : World -> string -> list Message -> gmap string Value
            -> (Exn + Response) * World)
    (model : string) (kwargs : gmap string Value) (prompt : list string)
    (mt : bool) (n : nat) (w : World)
    (r : Exn + list Reply) (w' : World) (tr : list Event)
    (md : string) (ms : list Message) (kw : gmap string Value)
    (out : Exn + Response) :
  attempts call model kwargs n prompt mt w = (r, w', tr) ->
  EvCall md ms kw out ∈ tr ->
  (exists q, last ms = Some (user_message q)
             /\ q ∈ request_turn_prompts prompt mt)
  /\ (forall m, m ∈ ms -> role m = user ->
        content m ∈ request_turn_prompts prompt mt
        /\ nonempty (content m) = true
        /\ (mt = true -> ~ occurs SEPARATOR (content m))).
Proof.
  revert w tr. induction n as [|n IH]; intros w tr Ha Hin.
  - cbn in Ha. injection Ha as <- <- <-. by apply elem_of_nil in Hin.
  - assert (forall o w1 tr1,
              round call model kwargs prompt mt w = (o, w1, tr1) ->
              EvCall md ms kw out ∈ tr1 ->
              (exists q, last ms = Some (user_message q)
                         /\ q ∈ request_turn_prompts prompt mt)
              /\ (forall m, m ∈ ms -> role m = user ->
                    content m ∈ request_turn_prompts prompt mt
                    /\ nonempty (content m) = true
                    /\ (mt = true -> ~ occurs SEPARATOR (content m)))) as Hround.
    { intros o w1 tr1 Hr Hin1. apply list_elem_of_lookup in Hin1 as [j Hj].
      pose proof (lookup_lt_Some _ _ _ Hj) as Hjlt.
      apply round_shape in Hr as [(_ & -> & _)|(_ & _ & Hlen & Hev)]; [done|].
      destruct (Hev _ _ Hj) as (out' & [= _ -> _ _] & _).
      assert (j < length (request_turn_prompts prompt mt)) as Hjq
        by (destruct (is_returned o); lia).
      assert (j <= length (results_of o)) as HjR
        by (destruct (is_returned o); lia).
      split.
      - destruct (lookup_lt_is_Some_2 _ _ Hjq) as [q Hq]. exists q.
        split; [by apply conversation_last|]. by eapply list_elem_of_lookup_2.
      - intros m Hm Hrole.
        apply conversation_user_messages in Hm; [|done].
        apply elem_of_take_list in Hm. split; [done|].
        unfold request_turn_prompts, request_parts in Hm |- *.
        split.
        + destruct mt; [destruct prompt as [|p0 ?]; [by apply elem_of_nil in Hm|]|];
            by apply list_elem_of_filter in Hm as [? _].
        + intros ->. destruct prompt as [|p0 ?]; [by apply elem_of_nil in Hm|].
          apply list_elem_of_filter in Hm as [_ Hm].
          pose proof (split_segments_free SEPARATOR SEPARATOR_nonempty p0) as Hfree.
          rewrite Forall_forall in Hfree. by apply Hfree. }
    apply attempts_inv in Ha
      as [(M & R & Hr & ->)|(e & em & R & M & w1 & tr1 & tr2 & Hr & Ha & ->)].
    + by eapply Hround.
    + apply elem_of_app in Hin as [Hin|Hin]; [by eapply Hround|].
      apply elem_of_app in Hin as [Hin|Hin]; [|by eapply IH].
      unfold handler_events in Hin. rewrite !elem_of_cons in Hin.
      destruct Hin as [?|[?|[?|Hin]]]; try done. by apply elem_of_nil in Hin.
Qed.

Lemma joined_turn_prompts_are_recovered_witness :
  split SEPARATOR (join SEPARATOR ["Hi"; "How are you?"]) = ["Hi"; "How are you?"]
  /\ request_turn_prompts [join SEPARATOR ["Hi"; "How are you?"]] true
     = turn_prompts ["Hi"; "How are you?"].
Proof.
  destruct (joined_turn_prompts_are_recovered ["Hi"; "How are you?"] [])
    as (H1 & _ & H2).
  - repeat constructor.
  - split; [|exact H2]. apply H1. discriminate.
Defined.


Lemma service_is_sent_turn_prompts_only_witness :
  exists q, last [user_message "a"; assistant_message
                    {| reply_role := "assistant"; reply_content := "re: a" |};
                  user_message "b"] = Some (user_message q)
            /\ q ∈ request_turn_prompts ["a"; ""; "b"] false.
Proof.
  apply (service_is_sent_turn_prompts_only scripted_call "qwen-turbo" ∅
           ["a"; ""; "b"] false 10 [] _ _ _ "qwen-turbo" _ ∅
           (inr (ok_response "re: b")) eq_refl).
  right. left.
Defined.

(** ** Instances of the further properties *)

Lemma private_key_hides_the_middle_witness :
  private_key ("sk-01234" +:+ "56789ab" +:+ "cdef")
  = "sk-01234" +:+ string_repeat "*" 23 +:+ "cdef".
Proof. apply private_key_hides_the_middle; reflexivity. Defined.

Lemma private_key_shows_a_short_key_witness :
  String.length "sk-0123" <= 12
  /\ String.prefix "sk-0123" (private_key "sk-0123") = true.
Proof.
  assert (String.length "sk-0123" <= 12) as H12 by (vm_compute; lia).
  split; [exact H12|].
  apply (proj2 (private_key_shows_a_short_key "sk-0123" H12)).
  vm_compute. lia.
Defined.

Lemma extra_argument_is_the_fallback_witness :
  (set_generation_args example_model {[ "top_p" := VFloat (9 # 10) ]}).2 !! "top_p"
  = Some (VFloat (9 # 10)).
Proof.
  apply (proj1 (extra_argument_is_the_fallback example_model
                  {[ "top_p" := VFloat (9 # 10) ]} "top_p"
                  ltac:(right; left) eq_refl)).
  - reflexivity.
  - discriminate.
Defined.

Lemma request_cost_is_bounded_witness :
  length (filter (fun ev => is_call ev = true)
            (attempts scripted_call "qwen-turbo" ∅ 10 ["a"; "b"] false
               [inr (ok_response "A"); inr (bad_response 500 "down")]).2)
  <= 10 * length (request_turn_prompts ["a"; "b"] false).
Proof.
  apply (request_cost_is_bounded scripted_call "qwen-turbo" ∅ ["a"; "b"] false 10
           [inr (ok_response "A"); inr (bad_response 500 "down")] _ _ _ eq_refl).
Defined.

Lemma request_without_turn_prompt_returns_at_once_witness :
  request down_call example_model [""; ""] ∅ false tt = (inr [], tt, []).
Proof.
  apply request_without_turn_prompt_returns_at_once.
  - vm_compute. lia.
  - by eexists.
  - reflexivity.
Defined.

Lemma warning_holds_the_status_message_only_witness :
  (attempts scripted_call "qwen-turbo" ∅ 10 ["a"] false
     [inl (UpstreamError "connection reset"); inr (bad_response 429 "busy")]).2
    !! (0 + 1)
  = Some (EvWarning ("Receive error: "
                     +:+ error_msg_after (inl (UpstreamError "connection reset"))))
  /\ (attempts scripted_call "qwen-turbo" ∅ 10 ["a"] false
        [inl (UpstreamError "connection reset"); inr (bad_response 429 "busy")]).2
       !! (4 + 1)
     = Some (EvWarning ("Receive error: "
                        +:+ error_msg_after (inr (bad_response 429 "busy")))).
Proof.
  split.
  - apply (warning_holds_the_status_message_only scripted_call "qwen-turbo" ∅
             ["a"] false 10
             [inl (UpstreamError "connection reset"); inr (bad_response 429 "busy")]
             _ _ _ 0 "qwen-turbo" [user_message "a"] ∅ _ eq_refl eq_refl eq_refl).
  - apply (warning_holds_the_status_message_only scripted_call "qwen-turbo" ∅
             ["a"] false 10
             [inl (UpstreamError "connection reset"); inr (bad_response 429 "busy")]
             _ _ _ 4 "qwen-turbo" [user_message "a"] ∅ _ eq_refl eq_refl eq_refl).
Defined.

Lemma every_sleep_follows_a_failed_call_witness :
  exists j ms out,
    3 = j + 3
    /\ (attempts scripted_call "qwen-turbo" ∅ 10 ["a"] false
          [inr (bad_response 429 "busy")]).2 !! j
       = Some (EvCall "qwen-turbo" ms ∅ out)
    /\ failed out = true.
Proof.
  apply (every_sleep_follows_a_failed_call scripted_call "qwen-turbo" ∅ ["a"]
           false 10 [inr (bad_response 429 "busy")] _ _ _ 3 1%Z eq_refl).
  - by eexists.
  - reflexivity.
Defined.

Lemma healthy_service_needs_one_round_witness :
  exists results w' tr,
    attempts echo_call "qwen-turbo" ∅ 10 ["Hi__SEPARATOR__How are you?"] true tt
      = (inr results, w', tr)
    /\ length results
       = length (request_turn_prompts ["Hi__SEPARATOR__How are you?"] true)
    /\ length tr
       = length (request_turn_prompts ["Hi__SEPARATOR__How are you?"] true)
    /\ Forall (fun ev => is_call ev = true) tr.
Proof.
  apply (healthy_service_needs_one_round echo_call "qwen-turbo" ∅
           ["Hi__SEPARATOR__How are you?"] true 9 tt).
  - intros w md ms kw. reflexivity.
  - by eexists.
Defined.

Lemma generation_raises_the_connection_error_only_witness :
  (generation down_call (set_generation_args example_model ∅).1 ["Hi"] tt).1.1
    = inl (ConnectionError "Dashscope API error")
  /\ ConnectionError "Dashscope API error" = ConnectionError "Dashscope API error".
Proof.
  assert ((generation down_call (set_generation_args example_model ∅).1 ["Hi"] tt).1.1
          = inl (ConnectionError "Dashscope API error")) as H
    by (vm_compute; reflexivity).
  split; [exact H|].
  exact (generation_raises_the_connection_error_only down_call example_model ∅
           ["Hi"] tt _ H).
Defined.

Lemma format_instance_is_idempotent_witness :
  WinoGender.format_instance
    (<["options" := WinoGender.OList
                      [WinoGender.OStr "technician"; WinoGender.OStr "customer"]]>
       WinoGender.example_instance)
  = inr (<["options" := WinoGender.OList
                          [WinoGender.OStr "technician"; WinoGender.OStr "customer"]]>
           WinoGender.example_instance).
Proof.
  assert (WinoGender.format_instance WinoGender.example_instance
          = inr (<["options" := WinoGender.OList
                                  [WinoGender.OStr "technician";
                                   WinoGender.OStr "customer"]]>
                   WinoGender.example_instance)) as H
    by (vm_compute; reflexivity).
  exact (format_instance_is_idempotent _ _ H).
Defined.

Lemma references_are_untouched_by_formatting_witness :
  WinoGender.references WinoGender.digit_int
    [<["options" := WinoGender.OList
                      [WinoGender.OStr "technician"; WinoGender.OStr "customer"]]>
       WinoGender.example_instance]
  = WinoGender.references WinoGender.digit_int [WinoGender.example_instance].
Proof.
  assert (WinoGender.format_instance WinoGender.example_instance
          = inr (<["options" := WinoGender.OList
                                  [WinoGender.OStr "technician";
                                   WinoGender.OStr "customer"]]>
                   WinoGender.example_instance)) as H
    by (vm_compute; reflexivity).
  apply references_are_untouched_by_formatting.
  constructor; [exact H|constructor].
Defined.
